(** * Knight's Tour by Warnsdorff's heuristic: the engine of [main.py]

    A shallow embedding of the class [KnightsTour] (constructor, bounds and
    freeness tests, legal-move enumeration, Warnsdorff ranking and the
    single-pass construction loop) together with the properties its
    specification states about it. *)

From Stdlib Require Import ZArith List Lia Bool Permutation Sorted Ascii.
From stdpp Require Import list pretty.

Local Open Scope Z_scope.

(** ** Python values and exceptions *)

(** The two exceptions the engine can raise: [ValueError] from the
    constructor, [IndexError] from a list subscript. *)
Inductive exn := ValueError | IndexError.

Inductive result (A : Type) : Type :=
| Ok (a : A)
| Raise (e : exn).
Arguments Ok {A} a.
Arguments Raise {A} e.

(** Sequencing: an exception raised by the first computation propagates. *)
#[global] Instance result_bind : MBind result := λ A B k m,
  match m with
  | Ok a => k a
  | Raise e => Raise e
  end.

(** A list subscript [l[i]]: indices [0 .. len-1] count from the front,
    [-len .. -1] from the back, anything else raises [IndexError]. *)
Definition py_index {A : Type} (l : list A) (i : Z) : option nat :=
  let len := Z.of_nat (length l) in
  if (0 <=? i) && (i <? len) then Some (Z.to_nat i)
  else if (- len <=? i) && (i <? 0) then Some (Z.to_nat (len + i))
  else None.

Definition getitem {A : Type} (l : list A) (i : Z) : result A :=
  match py_index l i with
  | Some k => match l !! k with Some x => Ok x | None => Raise IndexError end
  | None => Raise IndexError
  end.

Definition setitem {A : Type} (l : list A) (i : Z) (v : A) : result (list A) :=
  match py_index l i with
  | Some k => Ok (<[k:=v]> l)
  | None => Raise IndexError
  end.

(** [range(stop)] *)
Definition range (stop : Z) : list Z := seqZ 0 stop.

(** ** The engine *)

(** A square: a (row, column) pair. *)
Abbreviation square := (Z * Z)%type.

(** [KNIGHT_MOVES], in the declared order. *)
Definition KNIGHT_MOVES : list (Z * Z) :=
  [(2, 1); (1, 2); (-1, 2); (-2, 1); (-2, -1); (-1, -2); (1, -2); (2, -1)].

(** The sentinel stored in an unvisited cell. *)
Definition unvisited : Z := -1.

Record KnightsTour := mkKnightsTour {
  n : Z;
  start : square;
  board : list (list Z)
}.

(** [[[-1 for i in range(n)] for i in range(n)]]: every row is a list of
    its own, so a later store into one row leaves the others alone. *)
Definition fresh_board (n : Z) : list (list Z) :=
  (fun _ => (fun _ => unvisited) <$> range n) <$> range n.

(** [KnightsTour.__init__] *)
Definition init (n : Z) (start : square) : result KnightsTour :=
  if n <? 1 then Raise ValueError
  else Ok {| n := n; start := start; board := fresh_board n |}.

(** [KnightsTour._in_bounds] *)
Definition _in_bounds (self : KnightsTour) (r c : Z) : bool :=
  ((0 <=? r) && (r <? n self)) && ((0 <=? c) && (c <? n self)).

(** [self.board[r][c]] *)
Definition board_get (b : list (list Z)) (r c : Z) : result Z :=
  row ← getitem b r; getitem row c.

(** [self.board[r][c] = v]: the row object is fetched and updated in place. *)
Definition board_set (b : list (list Z)) (r c v : Z) : result (list (list Z)) :=
  row ← getitem b r;
  row' ← setitem row c v;
  setitem b r row'.

(** [KnightsTour._is_free]: [and] short-circuits, the cell is read only
    when the bounds test succeeded. *)
Definition _is_free (self : KnightsTour) (r c : Z) : result bool :=
  if _in_bounds self r c then
    v ← board_get (board self) r c; Ok (v =? unvisited : bool)
  else Ok false.

(** The comprehension of [_neighbors], over any list of offsets. *)
Fixpoint neighbors_from (self : KnightsTour) (r c : Z) (offsets : list (Z * Z))
  : result (list square) :=
  match offsets with
  | [] => Ok []
  | (dr, dc) :: rest =>
      free ← _is_free self (r + dr) (c + dc);
      tl ← neighbors_from self r c rest;
      Ok (if (free : bool) then (r + dr, c + dc) :: tl else tl)
  end.

(** [KnightsTour._neighbors] *)
Definition _neighbors (self : KnightsTour) (r c : Z) : result (list square) :=
  neighbors_from self r c KNIGHT_MOVES.

(** [list.sort(key=...)]: the key is computed once for every element, then
    the list is sorted by ascending key and elements with equal keys keep
    their order. *)
Fixpoint decorate {A : Type} (key : A → result nat) (l : list A)
  : result (list (nat * A)) :=
  match l with
  | [] => Ok []
  | x :: l' =>
      k ← key x;
      tl ← decorate key l';
      Ok ((k, x) :: tl)
  end.

Fixpoint insert_keyed {A : Type} (x : nat * A) (l : list (nat * A))
  : list (nat * A) :=
  match l with
  | [] => [x]
  | y :: l' =>
      if (x.1 <=? y.1)%nat then x :: y :: l' else y :: insert_keyed x l'
  end.

Fixpoint sort_keyed {A : Type} (l : list (nat * A)) : list (nat * A) :=
  match l with
  | [] => []
  | x :: l' => insert_keyed x (sort_keyed l')
  end.

Definition list_sort {A : Type} (key : A → result nat) (l : list A)
  : result (list A) :=
  d ← decorate key l; Ok ((sort_keyed d).*2).

(** The key of [_warnsdorff_sort]:
    [lambda pos: len(self._neighbors(pos[0], pos[1]))]. *)
Definition onward (self : KnightsTour) (pos : square) : result nat :=
  l ← _neighbors self pos.1 pos.2; Ok (length l).

(** [KnightsTour._warnsdorff_sort] *)
Definition _warnsdorff_sort (self : KnightsTour) (r c : Z)
  : result (list square) :=
  moves ← _neighbors self r c;
  list_sort (onward self) moves.

(** *** The construction loop of [solve_warnsdorff] *)

(** The engine and the locals [path], [r], [c] of a call. [calls] is a
    ghost counter: how many times [_warnsdorff_sort] has been called. *)
Record frame := mkFrame {
  self : KnightsTour;
  path : list square;
  pos : square;
  calls : nat
}.

(** The two [return] statements inside the loop. *)
Inductive ret := RetTour | RetDeadEnd.

Inductive control :=
| Next (f : frame)
| Return (at_ : ret) (f : frame) (v : option (list square)).

(** The engine after an assignment to [self.board]. *)
Definition set_board (s : KnightsTour) (b : list (list Z)) : KnightsTour :=
  {| n := n s; start := start s; board := b |}.

(** One more call of [_warnsdorff_sort] has been made. *)
Definition counted (f : frame) : frame :=
  {| self := self f; path := path f; pos := pos f; calls := S (calls f) |}.

(** [r, c = m] *)
Definition move_to (f : frame) (m : square) : frame :=
  {| self := self f; path := path f; pos := m; calls := calls f |}.

(** [self.board[r][c] = step; path.append((r, c))] *)
Definition visit (f : frame) (step : Z) : result frame :=
  b ← board_set (board (self f)) (pos f).1 (pos f).2 step;
  Ok {| self := set_board (self f) b;
        path := path f ++ [pos f];
        pos := pos f;
        calls := calls f |}.

(** The rest of the loop body: the test for the last step, the ranking,
    the dead-end test and the choice of the next square. *)
Definition advance (f : frame) (step : Z) : result control :=
  if step =? n (self f) * n (self f) - 1 then
    Ok (Return RetTour f (Some (path f)))
  else
    next_moves ← _warnsdorff_sort (self f) (pos f).1 (pos f).2;
    let f' := counted f in
    match next_moves with
    | [] => Ok (Return RetDeadEnd f' None)
    | m :: _ => Ok (Next (move_to f' m))
    end.

(** How a call ended: at a [return] inside the loop, during iteration
    [step], or at the [return None] that follows the loop. *)
Inductive finished :=
| InLoop (at_ : ret) (step : Z) (f : frame) (v : option (list square))
| AfterLoop (f : frame).

Fixpoint loop (steps : list Z) (f : frame) : result finished :=
  match steps with
  | [] => Ok (AfterLoop f)
  | step :: rest =>
      f1 ← visit f step;
      ctl ← advance f1 step;
      match ctl with
      | Next f2 => loop rest f2
      | Return at_ f2 v => Ok (InLoop at_ step f2 v)
      end
  end.

(** The state on entry to the loop: the board is reset, [path] is empty
    and [(r, c)] is the start square. *)
Definition enter (s : KnightsTour) : frame :=
  {| self := set_board s (fresh_board (n s));
     path := [];
     pos := start s;
     calls := 0 |}.

(** The whole call, with the place it returned from. *)
Definition run (s : KnightsTour) : result finished :=
  loop (range (n s * n s)) (enter s).

(** The value handed back to the caller. *)
Definition returned (fin : finished) : option (list square) :=
  match fin with
  | InLoop _ _ _ v => v
  | AfterLoop _ => None
  end.

(** The engine and the locals when the call returned. *)
Definition final_frame (fin : finished) : frame :=
  match fin with
  | InLoop _ _ f _ => f
  | AfterLoop f => f
  end.

(** [KnightsTour.solve_warnsdorff]: the value the call returns. *)
Definition solve_warnsdorff (s : KnightsTour) : result (option (list square)) :=
  fin ← run s; Ok (returned fin).

(** The engine [KnightsTour(k)], start square at the corner [(0, 0)]. *)
Definition corner (k : Z) : KnightsTour :=
  {| n := k; start := (0, 0); board := fresh_board k |}.

(** A board of side 3 with the corner visited at step 0. *)
Definition corner_marked : KnightsTour :=
  {| n := 3; start := (0, 0);
     board := [[0; -1; -1]; [-1; -1; -1]; [-1; -1; -1]] |}.

(** ** The operations as the specification words them, and the
    predicates of the proofs *)

(** A board of side [k]: [k] rows of [k] cells. *)
Definition wf_board (k : Z) (b : list (list Z)) : Prop :=
  length b = Z.to_nat k ∧ Forall (λ row, length row = Z.to_nat k) b.

(** The content of a cell, for reasoning; [unvisited] off the board. *)
Definition cell (b : list (list Z)) (r c : Z) : Z :=
  default unvisited (b !! Z.to_nat r ≫= λ row, row !! Z.to_nat c).

(** [p] is a square of the board of side [k]. *)
Definition inb (k : Z) (p : square) : Prop := 0 ≤ p.1 < k ∧ 0 ≤ p.2 < k.

(** The square reached from [p] by the offset [d]. *)
Definition offset (p : square) (d : Z * Z) : square := (p.1 + d.1, p.2 + d.2).

(** [isInBounds]: both coordinates lie in [0, N). *)
Definition isInBounds (s : KnightsTour) (p : square) : bool :=
  bool_decide (inb (n s) p).

(** [isFree]: in bounds and the cell is unvisited. *)
Definition isFree (s : KnightsTour) (p : square) : bool :=
  isInBounds s p && bool_decide (cell (board s) p.1 p.2 = unvisited).

(** [legalMoves]: the eight offsets applied in order, the free results kept. *)
Definition legalMoves (s : KnightsTour) (p : square) : list square :=
  List.filter (isFree s) (offset p <$> KNIGHT_MOVES).

(** Onward mobility of a candidate. *)
Definition mobility (s : KnightsTour) (p : square) : nat :=
  length (legalMoves s p).

(** [out] is the stable ascending sort of [l] by the key [kf]: the same
    elements, keys in ascending order, and for every key value the
    elements bearing it in the order they had in [l]. *)
Definition stable_sort_of {A : Type} (kf : A → nat) (l out : list A) : Prop :=
  out ≡ₚ l ∧
  StronglySorted (λ a b, (kf a ≤ kf b)%nat) out ∧
  ∀ k, List.filter (λ a, (kf a =? k)%nat) out
     = List.filter (λ a, (kf a =? k)%nat) l.

(** [q] is one knight move away from [p]. *)
Definition knight_step (p q : square) : Prop :=
  (q.1 - p.1, q.2 - p.2) ∈ KNIGHT_MOVES.

(** Each square of [l] is one knight move away from the one before it. *)
Definition chain (l : list square) : Prop :=
  ∀ i p q, l !! i = Some p → l !! S i = Some q → knight_step p q.

(** Board and path agree: the marked cells are the squares of the path,
    each holding its position in the path; the path stays on the board,
    repeats no square and advances by knight moves. *)
Record consistent (s : KnightsTour) (pth : list square) : Prop := {
  cons_wf : wf_board (n s) (board s);
  cons_inb : Forall (inb (n s)) pth;
  cons_nodup : NoDup pth;
  cons_marked : ∀ p, inb (n s) p →
    cell (board s) p.1 p.2 ≠ unvisited ↔ p ∈ pth;
  cons_index : ∀ i p, pth !! i = Some p →
    cell (board s) p.1 p.2 = Z.of_nat i;
  cons_chain : chain pth
}.

(** The points of a run at which the state is observed: the top of
    iteration [step] of the loop ([Head 0] is the entry to the loop), and
    the point of iteration [step] where the square has just been marked
    and appended. *)
Inductive point := Head (step : Z) | Marked (step : Z).

Inductive reach (s0 : KnightsTour) : point → frame → Prop :=
| reach_enter :
    reach s0 (Head 0) (enter s0)
| reach_visit k f f1 :
    reach s0 (Head k) f → 0 ≤ k < n s0 * n s0 → visit f k = Ok f1 →
    reach s0 (Marked k) f1
| reach_advance k f f2 :
    reach s0 (Marked k) f → advance f k = Ok (Next f2) →
    reach s0 (Head (k + 1)) f2.

(** What holds at each point. At the top of an iteration [pos] is the
    square about to be visited; once marked it is the last of the path. *)
Definition point_inv (s0 : KnightsTour) (pt : point) (f : frame) : Prop :=
  n (self f) = n s0 ∧ start (self f) = start s0 ∧
  consistent (self f) (path f) ∧
  match pt with
  | Head k =>
      Z.of_nat (length (path f)) = k ∧
      isFree (self f) (pos f) = true ∧
      (k = 0 → pos f = start s0) ∧
      (∀ p, last (path f) = Some p → knight_step p (pos f))
  | Marked k =>
      Z.of_nat (length (path f)) = k + 1 ∧
      last (path f) = Some (pos f)
  end.

(** The rest of iteration [k], from the marked point on. *)
Definition resume (s0 : KnightsTour) (k : Z) (f1 : frame) : result finished :=
  ctl ← advance f1 k;
  match ctl with
  | Next f2 => loop (seqZ (k + 1) (n s0 * n s0 - (k + 1))) f2
  | Return at_ f2 v => Ok (InLoop at_ k f2 v)
  end.

(** What is left of the run at a point. *)
Definition continues (s0 : KnightsTour) (pt : point) (f : frame)
  : result finished :=
  match pt with
  | Head k => loop (seqZ k (n s0 * n s0 - k)) f
  | Marked k => resume s0 k f
  end.

(** How a run that started from a square of the board ends: at the last
    step with the whole path, or at a dead end. *)
Definition terminal (s0 : KnightsTour) (fin : finished) : Prop :=
  match fin with
  | InLoop RetTour k f v =>
      reach s0 (Marked k) f ∧ k = n s0 * n s0 - 1 ∧ v = Some (path f)
  | InLoop RetDeadEnd k f v =>
      ∃ f1, reach s0 (Marked k) f1 ∧ k ≠ n s0 * n s0 - 1 ∧
            _warnsdorff_sort (self f1) (pos f1).1 (pos f1).2 = Ok [] ∧
            f = counted f1 ∧ v = None
  | AfterLoop _ => False
  end.

(** The board of the engine has the side the engine records. *)
Definition shaped (s : KnightsTour) : Prop := wf_board (n s) (board s).

(** The squares of the board of side [k], row by row. *)
Definition all_squares (k : Z) : list square :=
  list_prod (seqZ 0 k) (seqZ 0 k).

(** The tour found on the board of side 5 from the corner. *)
Definition tour_5x5 : list square :=
  [(0, 0); (2, 1); (4, 0); (3, 2); (4, 4); (2, 3); (0, 4); (1, 2);
   (3, 3); (1, 4); (0, 2); (1, 0); (3, 1); (4, 3); (2, 4); (0, 3);
   (1, 1); (3, 0); (4, 2); (3, 4); (1, 3); (0, 1); (2, 2); (4, 1);
   (2, 0)].

(** The run of [corner 3] once [(0, 0)] is marked and in the path. Next,
    [(2, 1)] is chosen; it is not visited yet. *)
Definition first_marked : frame :=
  {| self := corner_marked; path := [(0, 0)]; pos := (0, 0); calls := 0 |}.

(** The same run at the top of its second iteration. *)
Definition first_chosen : frame :=
  {| self := corner_marked; path := [(0, 0)]; pos := (2, 1); calls := 1 |}.

(** The run of [corner 2]: the knight cannot leave the corner. *)
Definition stuck_2x2 : frame :=
  {| self := {| n := 2; start := (0, 0); board := [[0; -1]; [-1; -1]] |};
     path := [(0, 0)]; pos := (0, 0); calls := 0 |}.

(** The coordinates that the subscripts of a board of side [k] accept:
    those of the board and the negative ones down to [-k], which count
    from the end. *)
Definition in_reach (k : Z) (p : square) : Prop :=
  - k ≤ p.1 < k ∧ - k ≤ p.2 < k.

(** The run of [corner 3] ends at a dead end at step 7. *)
Definition stuck_3x3 : finished :=
  InLoop RetDeadEnd 7
    {| self := {| n := 3; start := (0, 0);
                  board := [[0; 5; 2]; [3; -1; 7]; [6; 1; 4]] |};
       path := [(0, 0); (2, 1); (0, 2); (1, 0);
                (2, 2); (0, 1); (2, 0); (1, 2)];
       pos := (1, 2); calls := 8 |}
    None.

(** From [(-1, 0)] on the board of side 5 row [-1] is row 4 counted from
    the end: the call returns 25 squares, the first of them off the
    board. *)
Definition wrapped_5x5 : list square :=
  [(-1, 0); (1, 1); (0, 3); (2, 4); (4, 3); (3, 1); (1, 0); (0, 2);
   (1, 4); (3, 3); (4, 1); (2, 2); (3, 0); (4, 2); (3, 4); (1, 3);
   (0, 1); (2, 0); (3, 2); (4, 4); (2, 3); (0, 4); (1, 2); (0, 0);
   (2, 1)].

(** ** Printing and the command line *)

(** [str(i)] for an integer [i]: its decimal digits, after a minus sign
    when it is negative. *)
Definition str_int (i : Z) : string := pretty i.

Fixpoint spaces (k : nat) : string :=
  match k with
  | O => EmptyString
  | S k' => String " "%char (spaces k')
  end.

(** [s.rjust(width)]: [s] behind enough spaces to make it [width] long;
    [s] itself when it is that long already. *)
Definition rjust (s : string) (width : nat) : string :=
  spaces (width - String.length s) +:+ s.

(** A comprehension whose element expression can raise. *)
Fixpoint for_each {A B : Type} (f : A → result B) (l : list A)
  : result (list B) :=
  match l with
  | [] => Ok []
  | x :: l' =>
      y ← f x;
      tl ← for_each f l';
      Ok (y :: tl)
  end.

(** What is printed, line by line, and how the printing ended. *)
Definition printed : Type := list string * result unit.

(** The text of one cell in [print_board]. *)
Definition cell_text (width : nat) (v : Z) : string :=
  if negb (v =? unvisited) then rjust (str_int v) width
  else rjust "." width.

(** One line of [print_board]: the cells of row [r], joined by spaces. *)
Definition row_text (s : KnightsTour) (width : nat) (r : Z) : result string :=
  cells ← for_each
             (λ c, v ← board_get (board s) r c; Ok (cell_text width v))
             (range (n s));
  Ok (String.concat " " cells).

Fixpoint print_rows (s : KnightsTour) (width : nat) (rows : list Z) : printed :=
  match rows with
  | [] => ([], Ok ())
  | r :: rest =>
      match row_text s width r with
      | Raise e => ([], Raise e)
      | Ok line =>
          let (out, res) := print_rows s width rest in (line :: out, res)
      end
  end.

(** [KnightsTour.print_board] *)
Definition print_board (s : KnightsTour) : printed :=
  let width := String.length (str_int (n s * n s - 1)) in
  print_rows s width (range (n s)).

(** [str((r, c))] *)
Definition str_square (p : square) : string :=
  "(" +:+ str_int p.1 +:+ ", " +:+ str_int p.2 +:+ ")".

(** A line of [print_path]: the index right-justified to three columns,
    then the square. *)
Definition path_line (i : nat) (p : square) : string :=
  rjust (str_int (Z.of_nat i)) 3 +:+ ": " +:+ str_square p.

(** [KnightsTour.print_path] *)
Definition print_path (pth : list square) : list string :=
  "Move sequence (row, col):"%string :: imap path_line pth.

(** The only value [--method] admits. *)
Inductive method := warnsdorff.

(** The namespace [parse_args] returns: [--start] is absent or holds two
    integers. *)
Record args := mkArgs {
  arg_n : Z;
  arg_start : option square;
  arg_method : method;
  arg_quiet : bool
}.

Definition header (k : Z) (st : square) : string :=
  "Knight's Tour: " +:+ str_int k +:+ "x" +:+ str_int k
  +:+ ", start=" +:+ str_square st +:+ ", method=warnsdorff".

(** What [main] prints once the search has come back: [kt] is the engine
    as the search left it, [v] the value the search returned. A list is
    true when it is not empty. *)
Definition report (kt : KnightsTour) (v : option (list square))
    (quiet : bool) : printed :=
  match v with
  | Some (q :: pth) =>
      if negb quiet then
        let (rows, res) := print_board kt in
        match res with
        | Ok _ =>
            ("Solution found!"%string :: rows
               ++ EmptyString :: print_path (q :: pth), Ok ())
        | Raise e => ("Solution found!"%string :: rows, Raise e)
        end
      else (["Solution found!"%string], Ok ())
  | _ =>
      (["No solution found with the chosen method / parameters."%string],
       Ok ())
  end.

(** [main], from the parsed arguments on. *)
Definition main (a : args) : printed :=
  let st := match arg_start a with Some st => st | None => (0, 0) end in
  match init (arg_n a) st with
  | Raise e => ([], Raise e)
  | Ok kt =>
      let head_line := header (arg_n a) st in
      match arg_method a with
      | warnsdorff =>
          match run kt with
          | Raise e => ([head_line], Raise e)
          | Ok fin =>
              let (out, res) :=
                report (self (final_frame fin)) (returned fin) (arg_quiet a)
              in (head_line :: out, res)
          end
      end
  end.


(** ** Boards of the right shape *)

Section subscripts.
Context {A : Type}.
Implicit Types (l : list A) (i : Z).

Lemma py_index_front l i :
  0 ≤ i < Z.of_nat (length l) → py_index l i = Some (Z.to_nat i).
Proof.
  intros Hi. unfold py_index.
  destruct (0 <=? i) eqn:E1; [|lia].
  destruct (i <? Z.of_nat (length l)) eqn:E2; [done|lia].
Qed.

Lemma getitem_front l i x :
  0 ≤ i → l !! Z.to_nat i = Some x → getitem l i = Ok x.
Proof.
  intros Hi Hx. unfold getitem.
  rewrite py_index_front, Hx; [done|].
  apply lookup_lt_Some in Hx. lia.
Qed.

Lemma setitem_front l i x :
  0 ≤ i < Z.of_nat (length l) → setitem l i x = Ok (<[Z.to_nat i:=x]> l).
Proof. intros Hi. unfold setitem. by rewrite py_index_front. Qed.

End subscripts.

Lemma wf_board_row k b r :
  wf_board k b → 0 ≤ r < k →
  ∃ row, b !! Z.to_nat r = Some row ∧ length row = Z.to_nat k.
Proof.
  intros [Hlen Hrows] Hr.
  assert (is_Some (b !! Z.to_nat r)) as [row Hrow]
    by (apply lookup_lt_is_Some_2; lia).
  exists row. split; [done|].
  rewrite Forall_forall in Hrows. apply Hrows.
  by eapply list_elem_of_lookup_2.
Qed.

Lemma board_get_wf k b r c :
  wf_board k b → inb k (r, c) → board_get b r c = Ok (cell b r c).
Proof.
  intros Hwf [Hr Hc]; simpl in *.
  destruct (wf_board_row k b r Hwf Hr) as (row & Hrow & Hlen).
  assert (is_Some (row !! Z.to_nat c)) as [v Hv]
    by (apply lookup_lt_is_Some_2; lia).
  unfold board_get, cell. rewrite (getitem_front b r row) by (done || lia).
  simpl. rewrite Hrow. simpl. rewrite Hv. simpl.
  by apply getitem_front; [lia|].
Qed.

Lemma board_set_wf k b r c v :
  wf_board k b → inb k (r, c) →
  ∃ b', board_set b r c v = Ok b' ∧ wf_board k b' ∧ cell b' r c = v ∧
        ∀ q : square, 0 ≤ q.1 → 0 ≤ q.2 → q ≠ (r, c) →
                      cell b' q.1 q.2 = cell b q.1 q.2.
Proof.
  intros Hwf [Hr Hc]; simpl in *.
  destruct (wf_board_row k b r Hwf Hr) as (row & Hrow & Hlen).
  destruct Hwf as [Hlenb Hrows].
  exists (<[Z.to_nat r := <[Z.to_nat c := v]> row]> b).
  split; [|split; [|split]].
  - unfold board_set. rewrite (getitem_front b r row) by (done || lia).
    simpl. rewrite setitem_front by lia. simpl.
    apply setitem_front. lia.
  - split; [by rewrite length_insert|].
    apply Forall_insert; [done|]. by rewrite length_insert.
  - unfold cell. rewrite list_lookup_insert_eq by lia. simpl.
    rewrite list_lookup_insert_eq by lia. done.
  - intros [r' c'] Hr' Hc' Hne. simpl in *. unfold cell.
    destruct (decide (Z.to_nat r = Z.to_nat r')) as [Heq|Hneq].
    + rewrite <- Heq. rewrite list_lookup_insert_eq by lia. rewrite Hrow. simpl.
      rewrite list_lookup_insert_ne; [done|].
      intros Heqc. apply Hne. f_equal; lia.
    + by rewrite list_lookup_insert_ne.
Qed.

Lemma range_length k : length (range k) = Z.to_nat k.
Proof. unfold range. apply length_seqZ. Qed.

Lemma fresh_board_wf k : wf_board k (fresh_board k).
Proof.
  unfold fresh_board. split.
  - by rewrite length_fmap, range_length.
  - apply Forall_fmap, Forall_true. intros z. simpl.
    by rewrite length_fmap, range_length.
Qed.

Lemma fresh_board_cell k r c : cell (fresh_board k) r c = unvisited.
Proof.
  unfold cell, fresh_board.
  rewrite list_lookup_fmap.
  destruct (range k !! Z.to_nat r); simpl; [|done].
  rewrite list_lookup_fmap.
  by destruct (range k !! Z.to_nat c).
Qed.

(** ** Bounds, freeness and legal moves *)

Lemma in_bounds_spec s r c : _in_bounds s r c = isInBounds s (r, c).
Proof.
  unfold _in_bounds, isInBounds, inb. simpl.
  destruct (Z.leb_spec 0 r), (Z.ltb_spec r (n s)),
    (Z.leb_spec 0 c), (Z.ltb_spec c (n s)); simpl;
    symmetry;
    (apply bool_decide_eq_true_2 || apply bool_decide_eq_false_2); lia.
Qed.

Lemma in_bounds_true s r c : _in_bounds s r c = true ↔ inb (n s) (r, c).
Proof.
  rewrite in_bounds_spec. unfold isInBounds. apply bool_decide_eq_true.
Qed.

Lemma is_free_off_board s r c :
  _in_bounds s r c = false → _is_free s r c = Ok false.
Proof. intros H. unfold _is_free. by rewrite H. Qed.

Lemma is_free_wf s r c :
  wf_board (n s) (board s) → _is_free s r c = Ok (isFree s (r, c)).
Proof.
  intros Hwf. unfold _is_free, isFree. rewrite <- in_bounds_spec.
  destruct (_in_bounds s r c) eqn:Hb; [|done].
  apply in_bounds_true in Hb.
  rewrite (board_get_wf _ _ _ _ Hwf Hb). simpl. f_equal.
  destruct (Z.eqb_spec (cell (board s) r c) unvisited) as [->|Hne].
  - by rewrite bool_decide_eq_true_2.
  - by rewrite bool_decide_eq_false_2.
Qed.

Lemma neighbors_from_wf s r c offsets :
  wf_board (n s) (board s) →
  neighbors_from s r c offsets
  = Ok (List.filter (isFree s) (offset (r, c) <$> offsets)).
Proof.
  intros Hwf. induction offsets as [|[dr dc] rest IH]; [done|].
  simpl. rewrite is_free_wf by done. simpl. rewrite IH. simpl.
  unfold offset at 1 3. simpl. by destruct (isFree s (r + dr, c + dc)).
Qed.

Lemma neighbors_wf s r c :
  wf_board (n s) (board s) → _neighbors s r c = Ok (legalMoves s (r, c)).
Proof. apply neighbors_from_wf. Qed.

Lemma isFree_true s p :
  isFree s p = true ↔ inb (n s) p ∧ cell (board s) p.1 p.2 = unvisited.
Proof.
  unfold isFree, isInBounds.
  rewrite andb_true_iff, !bool_decide_eq_true. done.
Qed.

Lemma legalMoves_elem s p q :
  q ∈ legalMoves s p ↔
  isFree s q = true ∧ ∃ d, d ∈ KNIGHT_MOVES ∧ q = offset p d.
Proof.
  unfold legalMoves. rewrite list_elem_of_In, filter_In, <- list_elem_of_In.
  rewrite list_elem_of_fmap. split.
  - intros [(d & -> & Hd) Hq]. eauto.
  - intros [Hq (d & Hd & ->)]. eauto.
Qed.

(** ** [list.sort] with a key *)

Section sorting.
Context {A : Type}.
Implicit Types (x y : nat * A) (l : list (nat * A)).

Lemma insert_keyed_perm x l : insert_keyed x l ≡ₚ x :: l.
Proof.
  induction l as [|y l IH]; simpl; [done|].
  destruct (x.1 <=? y.1)%nat; [done|].
  rewrite IH. apply Permutation_swap.
Qed.

Lemma sort_keyed_perm l : sort_keyed l ≡ₚ l.
Proof.
  induction l as [|x l IH]; simpl; [done|].
  by rewrite insert_keyed_perm, IH.
Qed.

Lemma insert_keyed_sorted x l :
  StronglySorted (λ a b, (a.1 ≤ b.1)%nat) l →
  StronglySorted (λ a b, (a.1 ≤ b.1)%nat) (insert_keyed x l).
Proof.
  induction 1 as [|y l Hs IH Hy]; simpl.
  - repeat constructor.
  - destruct (Nat.leb_spec x.1 y.1) as [Hle|Hgt].
    + constructor; [by constructor|].
      constructor; [done|].
      eapply Forall_impl; [exact Hy|]. simpl. lia.
    + constructor; [done|].
      rewrite insert_keyed_perm. constructor; [lia|done].
Qed.

Lemma sort_keyed_sorted l :
  StronglySorted (λ a b, (a.1 ≤ b.1)%nat) (sort_keyed l).
Proof.
  induction l; simpl; [constructor|]. by apply insert_keyed_sorted.
Qed.

(** Stability: insertion never moves an element past one of equal key. *)
Lemma insert_keyed_stable k x l :
  List.filter (λ a : nat * A, (a.1 =? k)%nat) (insert_keyed x l)
  = List.filter (λ a : nat * A, (a.1 =? k)%nat) (x :: l).
Proof.
  induction l as [|y l IH]; [done|].
  cbn [insert_keyed].
  destruct (Nat.leb_spec x.1 y.1) as [Hle|Hgt]; [done|].
  cbn [List.filter] in *. rewrite IH.
  destruct (Nat.eqb_spec y.1 k), (Nat.eqb_spec x.1 k); try done. lia.
Qed.

Lemma sort_keyed_stable k l :
  List.filter (λ a : nat * A, (a.1 =? k)%nat) (sort_keyed l)
  = List.filter (λ a : nat * A, (a.1 =? k)%nat) l.
Proof.
  induction l as [|x l IH]; [done|].
  cbn [sort_keyed]. rewrite insert_keyed_stable.
  cbn [List.filter]. by rewrite IH.
Qed.

Variable kf : A → nat.

Lemma decorate_total (key : A → result nat) (xs : list A) :
  (∀ a, a ∈ xs → key a = Ok (kf a)) →
  decorate key xs = Ok ((λ a, (kf a, a)) <$> xs).
Proof.
  induction xs as [|a xs IH]; intros Hkey; [done|].
  simpl. rewrite Hkey by left. simpl.
  rewrite IH; [done|]. intros b Hb. apply Hkey. by right.
Qed.

Lemma filter_undecorate (P : A → bool) l :
  List.filter P (l.*2) = (List.filter (λ y : nat * A, P y.2) l).*2.
Proof.
  induction l as [|y l IH]; [done|].
  cbn [fmap list_fmap List.filter]. rewrite IH.
  by destruct (P y.2).
Qed.

Lemma decorated_fmap (xs : list A) :
  Forall (λ y : nat * A, y.1 = kf y.2) ((λ a, (kf a, a)) <$> xs).
Proof. apply Forall_fmap, Forall_true. done. Qed.

Lemma undecorate_fmap (xs : list A) : ((λ a, (kf a, a)) <$> xs).*2 = xs.
Proof. induction xs; simpl; [done|]. by f_equal. Qed.

(** With a key that raises nothing, [list.sort] yields the stable
    ascending sort of its input. *)
Lemma list_sort_total (key : A → result nat) (xs : list A) :
  (∀ a, a ∈ xs → key a = Ok (kf a)) →
  ∃ out, list_sort key xs = Ok out ∧ stable_sort_of kf xs out.
Proof.
  intros Hkey. unfold list_sort. rewrite (decorate_total _ _ Hkey). simpl.
  set (d := (λ a, (kf a, a)) <$> xs).
  assert (Hd : Forall (λ y : nat * A, y.1 = kf y.2) (sort_keyed d)).
  { rewrite sort_keyed_perm. apply decorated_fmap. }
  eexists. split; [done|]. split; [|split].
  - rewrite sort_keyed_perm. subst d. by rewrite undecorate_fmap.
  - generalize (sort_keyed_sorted d). revert Hd.
    generalize (sort_keyed d). intros l Hl Hs.
    induction Hs as [|y l Hs IH Hy]; simpl; [constructor|].
    apply Forall_cons in Hl as [Hy1 Hl].
    constructor; [by apply IH|].
    apply Forall_fmap. rewrite Forall_forall in Hy, Hl |- *.
    intros z Hz. simpl. rewrite <- Hy1, <- (Hl z Hz). by apply Hy.
  - intros k.
    rewrite filter_undecorate.
    rewrite <- (undecorate_fmap xs) at 1. fold d.
    rewrite filter_undecorate.
    f_equal.
    rewrite (filter_ext_in _ (λ a : nat * A, (a.1 =? k)%nat) (sort_keyed d)).
    2:{ intros y Hy. rewrite Forall_forall in Hd.
        rewrite (Hd y); [done|]. by apply list_elem_of_In. }
    rewrite sort_keyed_stable.
    apply filter_ext_in. intros y Hy.
    pose proof (decorated_fmap xs) as Hd'. rewrite Forall_forall in Hd'.
    rewrite (Hd' y); [done|]. by apply list_elem_of_In.
Qed.
End sorting.

Lemma warnsdorff_sort_wf s r c :
  wf_board (n s) (board s) →
  ∃ out, _warnsdorff_sort s r c = Ok out ∧
         stable_sort_of (mobility s) (legalMoves s (r, c)) out.
Proof.
  intros Hwf. unfold _warnsdorff_sort. rewrite neighbors_wf by done. simpl.
  apply list_sort_total. intros [qr qc] _.
  unfold onward. simpl. by rewrite neighbors_wf.
Qed.

(** ** The state of a run *)

Lemma knight_step_offset p d : d ∈ KNIGHT_MOVES → knight_step p (offset p d).
Proof.
  intros Hd. unfold knight_step, offset. simpl.
  replace (p.1 + d.1 - p.1) with d.1 by lia.
  replace (p.2 + d.2 - p.2) with d.2 by lia.
  by destruct d.
Qed.

Lemma enter_inv s0 : inb (n s0) (start s0) → point_inv s0 (Head 0) (enter s0).
Proof.
  intros Hst. unfold point_inv, enter. simpl.
  split; [done|]. split; [done|]. split; [|split; [done|split; [|done]]].
  - split; simpl.
    + apply fresh_board_wf.
    + constructor.
    + constructor.
    + intros p _. rewrite fresh_board_cell, elem_of_nil. tauto.
    + intros i p Hp. by rewrite lookup_nil in Hp.
    + intros i p q Hp. by rewrite lookup_nil in Hp.
  - apply isFree_true. simpl. split; [done|]. apply fresh_board_cell.
Qed.

Lemma visit_inv s0 k f :
  point_inv s0 (Head k) f →
  ∃ f1, visit f k = Ok f1 ∧ point_inv s0 (Marked k) f1.
Proof.
  intros (Hn & Hs & Hc & Hlen & Hfree & _ & Hlast).
  apply isFree_true in Hfree as [Hinb Hcell].
  destruct Hc as [Hwf Hpin Hnd Hmk Hix Hch].
  assert (Hnotin : pos f ∉ path f).
  { intros Hin. by apply (Hmk _ Hinb) in Hin. }
  unfold visit. destruct (pos f) as [r c]. simpl in Hcell |- *.
  destruct (board_set_wf _ _ r c k Hwf Hinb)
    as (b' & Hset & Hwf' & Hnew & Hold).
  rewrite Hset. simpl. eexists. split; [done|].
  unfold point_inv. simpl.
  split; [done|]. split; [done|]. split; [|split].
  - split; simpl.
    + done.
    + apply Forall_app. split; [done|]. by apply Forall_singleton.
    + apply NoDup_app. split; [done|]. split; [|apply NoDup_singleton].
      intros x Hx Hx'. apply list_elem_of_singleton in Hx'. by subst.
    + intros p Hp. rewrite elem_of_app, list_elem_of_singleton.
      destruct (decide (p = (r, c))) as [->|Hne].
      * simpl. rewrite Hnew. unfold unvisited. split; [auto|lia].
      * rewrite Hold; [|apply Hp|apply Hp|done].
        rewrite (Hmk p Hp). tauto.
    + intros i p Hp. apply lookup_snoc_Some in Hp as [[Hi Hp]|[Hi <-]].
      * rewrite Forall_forall in Hpin.
        pose proof (Hpin p (list_elem_of_lookup_2 _ _ _ Hp)) as Hpb.
        rewrite Hold; [by apply Hix|apply Hpb|apply Hpb|].
        intros ->. apply Hnotin. by eapply list_elem_of_lookup_2.
      * simpl. rewrite Hnew. lia.
    + intros i p q Hp Hq.
      apply lookup_snoc_Some in Hq as [[Hi Hq]|[Hi <-]].
      * rewrite lookup_app_l in Hp by lia. by eapply Hch.
      * apply Hlast. rewrite last_lookup, <- Hi. simpl.
        by rewrite lookup_app_l in Hp by lia.
  - rewrite length_app. simpl. lia.
  - apply last_snoc.
Qed.

Lemma advance_last s0 k f :
  n (self f) = n s0 → k = n s0 * n s0 - 1 →
  advance f k = Ok (Return RetTour f (Some (path f))).
Proof.
  intros Hn ->. unfold advance. rewrite Hn. by rewrite Z.eqb_refl.
Qed.

Lemma advance_inv s0 k f :
  point_inv s0 (Marked k) f → k ≠ n s0 * n s0 - 1 →
  ∃ moves,
    _warnsdorff_sort (self f) (pos f).1 (pos f).2 = Ok moves ∧
    stable_sort_of (mobility (self f)) (legalMoves (self f) (pos f)) moves ∧
    match moves with
    | [] => advance f k = Ok (Return RetDeadEnd (counted f) None)
    | m :: _ =>
        advance f k = Ok (Next (move_to (counted f) m)) ∧
        point_inv s0 (Head (k + 1)) (move_to (counted f) m)
    end.
Proof.
  intros (Hn & Hs & Hc & Hlen & Hlast) Hk.
  destruct (warnsdorff_sort_wf (self f) (pos f).1 (pos f).2 (cons_wf _ _ Hc))
    as (moves & Hsort & Hst).
  rewrite <- surjective_pairing in Hst.
  exists moves. split; [done|]. split; [done|].
  unfold advance. rewrite Hn.
  destruct (Z.eqb_spec k (n s0 * n s0 - 1)) as [|_]; [done|].
  rewrite Hsort. simpl. destruct moves as [|m rest]; [done|].
  split; [done|].
  assert (Hm : m ∈ legalMoves (self f) (pos f)).
  { destruct Hst as (Hperm & _). rewrite <- Hperm. by left. }
  apply legalMoves_elem in Hm as (Hfree & d & Hd & ->).
  unfold point_inv. simpl.
  do 5 (split; [done|]). split.
  - intros Hk0. destruct (path f); [done|]. simpl in Hlen. lia.
  - intros p Hp. rewrite Hlast in Hp. injection Hp as <-.
    by apply knight_step_offset.
Qed.

Lemma reach_inv s0 pt f :
  inb (n s0) (start s0) → reach s0 pt f → point_inv s0 pt f.
Proof.
  intros Hst. induction 1 as [|k f f1 _ IH Hk Hv|k f f2 _ IH Hadv].
  - by apply enter_inv.
  - destruct (visit_inv s0 k f IH) as (f1' & Hv' & Hinv).
    rewrite Hv in Hv'. by injection Hv' as <-.
  - destruct (decide (k = n s0 * n s0 - 1)) as [Hk|Hk].
    + rewrite (advance_last s0) in Hadv; [done|apply IH|done].
    + destruct (advance_inv s0 k f IH Hk) as (moves & _ & _ & Hm).
      destruct moves as [|m rest].
      * by rewrite Hm in Hadv.
      * destruct Hm as [Hm Hinv]. rewrite Hm in Hadv.
        by injection Hadv as <-.
Qed.

(** ** The run passes through the reachable points *)

Lemma loop_unfold s0 k f :
  0 ≤ k < n s0 * n s0 →
  loop (seqZ k (n s0 * n s0 - k)) f = (f1 ← visit f k; resume s0 k f1).
Proof.
  intros Hk. rewrite seqZ_cons by lia. simpl.
  replace (Z.pred (n s0 * n s0 - k)) with (n s0 * n s0 - (k + 1)) by lia.
  by replace (Z.succ k) with (k + 1) by lia.
Qed.

Lemma run_continues s0 pt f : reach s0 pt f → run s0 = continues s0 pt f.
Proof.
  induction 1 as [|k f f1 _ IH Hk Hv|k f f2 _ IH Hadv]; simpl in *.
  - unfold run, range. by rewrite Z.sub_0_r.
  - rewrite IH, loop_unfold by done. by rewrite Hv.
  - rewrite IH. unfold resume. by rewrite Hadv.
Qed.

Lemma loop_terminal s0 (m : nat) :
  inb (n s0) (start s0) →
  ∀ k f, reach s0 (Head k) f → 0 ≤ k → k + Z.of_nat (S m) = n s0 * n s0 →
  ∃ fin, loop (seqZ k (n s0 * n s0 - k)) f = Ok fin ∧ terminal s0 fin.
Proof.
  intros Hst. induction m as [|m IH]; intros k f Hr Hk0 Hk.
  - rewrite loop_unfold by lia.
    destruct (visit_inv s0 k f (reach_inv _ _ _ Hst Hr)) as (f1 & Hv & Hinv).
    rewrite Hv. simpl. unfold resume.
    rewrite (advance_last s0); [|apply Hinv|lia]. simpl.
    eexists. split; [done|]. simpl.
    split; [|split; [lia|done]]. eapply reach_visit; [done|lia|done].
  - rewrite loop_unfold by lia.
    destruct (visit_inv s0 k f (reach_inv _ _ _ Hst Hr)) as (f1 & Hv & Hinv).
    assert (Hr1 : reach s0 (Marked k) f1).
    { eapply reach_visit; [done|lia|done]. }
    rewrite Hv. simpl. unfold resume.
    destruct (advance_inv s0 k f1 Hinv) as (moves & Hsort & _ & Hm); [lia|].
    destruct moves as [|mv rest].
    + rewrite Hm. simpl. eexists. split; [done|]. simpl.
      exists f1. repeat split; try done. lia.
    + destruct Hm as [Hm _]. rewrite Hm. simpl.
      apply IH; [|lia|lia]. by eapply reach_advance.
Qed.

Lemma run_terminal s0 :
  inb (n s0) (start s0) → ∃ fin, run s0 = Ok fin ∧ terminal s0 fin.
Proof.
  intros Hst.
  assert (0 < n s0) as Hn by (destruct Hst; lia).
  rewrite (run_continues s0 _ _ (reach_enter s0)). simpl.
  apply (loop_terminal s0 (Z.to_nat (n s0 * n s0 - 1)) Hst).
  - constructor.
  - done.
  - nia.
Qed.

(** ** Shape of the board, whatever the start square *)

Lemma setitem_length {A : Type} (l l' : list A) i v :
  setitem l i v = Ok l' → length l' = length l.
Proof.
  unfold setitem. destruct (py_index l i); [|done].
  intros [= <-]. apply length_insert.
Qed.

Lemma getitem_elem {A : Type} (l : list A) i x : getitem l i = Ok x → x ∈ l.
Proof.
  unfold getitem. destruct (py_index l i) as [k|]; [|done].
  destruct (l !! k) eqn:Hk; [|done]. intros [= <-].
  by eapply list_elem_of_lookup_2.
Qed.

Lemma board_set_shape k b r c v b' :
  wf_board k b → board_set b r c v = Ok b' → wf_board k b'.
Proof.
  intros [Hlen Hrows]. unfold board_set.
  destruct (getitem b r) as [row|] eqn:Hrow; [|done]. simpl.
  destruct (setitem row c v) as [row'|] eqn:Hrow'; [|done]. simpl.
  unfold setitem. destruct (py_index b r) as [i|]; [|done]. intros [= <-].
  split; [by rewrite length_insert|].
  apply Forall_insert; [done|].
  rewrite (setitem_length _ _ _ _ Hrow').
  rewrite Forall_forall in Hrows. apply Hrows. by eapply getitem_elem.
Qed.

Lemma init_shaped k st s : init k st = Ok s → shaped s.
Proof.
  unfold init. destruct (k <? 1); [done|]. intros [= <-].
  apply fresh_board_wf.
Qed.

Lemma advance_Next f k f2 :
  advance f k = Ok (Next f2) →
  ∃ m rest, _warnsdorff_sort (self f) (pos f).1 (pos f).2 = Ok (m :: rest) ∧
            f2 = move_to (counted f) m.
Proof.
  unfold advance. destruct (k =? _); [done|].
  destruct (_warnsdorff_sort _ _ _) as [[|m rest]|]; simpl; try done.
  intros [= <-]. eauto.
Qed.

Lemma reach_shaped s0 pt f :
  reach s0 pt f →
  n (self f) = n s0 ∧ start (self f) = start s0 ∧ shaped (self f).
Proof.
  induction 1 as [|k f f1 _ (Hn & Hs & Hwf) Hk Hv
                  |k f f2 _ (Hn & Hs & Hwf) Hadv].
  - split; [done|]. split; [done|]. apply fresh_board_wf.
  - unfold visit in Hv.
    destruct (board_set _ _ _ _) as [b'|] eqn:Hset; [|done].
    injection Hv as <-. unfold shaped. simpl.
    split; [done|]. split; [done|].
    by eapply board_set_shape.
  - apply advance_Next in Hadv as (m & rest & _ & ->). done.
Qed.

(** ** Geometry of the offsets *)

Lemma KNIGHT_MOVES_geometry (d : Z * Z) :
  d ∈ KNIGHT_MOVES ↔
  (Z.abs d.1 = 1 ∧ Z.abs d.2 = 2) ∨ (Z.abs d.1 = 2 ∧ Z.abs d.2 = 1).
Proof.
  destruct d as [dr dc]. unfold KNIGHT_MOVES. simpl.
  rewrite !elem_of_cons, elem_of_nil. split.
  - intros H.
    repeat (destruct H as [H|H]; [injection H as Hr Hc; subst; lia|]).
    done.
  - intros H.
    assert (dr = 1 ∨ dr = -1 ∨ dr = 2 ∨ dr = -2) as Hr by lia.
    assert (dc = 1 ∨ dc = -1 ∨ dc = 2 ∨ dc = -2) as Hc by lia.
    destruct Hr as [-> | [-> | [-> | ->]]], Hc as [-> | [-> | [-> | ->]]];
      try lia; tauto.
Qed.

Lemma KNIGHT_MOVES_eight : length KNIGHT_MOVES = 8%nat ∧ NoDup KNIGHT_MOVES.
Proof. split; [done|]. apply (bool_decide_unpack _). by vm_compute. Qed.

(** ** Construction *)

(** C3, as the code has it. The constructor raises [ValueError] exactly
    when the size is below 1, and raises nothing else; the start square is
    not examined: for every size from 1 up the engine is built, with the
    start square as given and an all-unvisited board, whether the square
    lies on the board or not. *)
Theorem init_checks_size_only (k : Z) (st : square) :
  (init k st = Raise ValueError ↔ k < 1) ∧
  (1 ≤ k ↔ init k st = Ok {| n := k; start := st; board := fresh_board k |}) ∧
  init k st ≠ Raise IndexError.
Proof.
  unfold init. destruct (Z.ltb_spec k 1); repeat split; try done; lia.
Qed.

(** C3 fails as stated: a start square off the board (row 5 on a board of
    side 5) does not make the constructor raise. *)
Lemma init_accepts_start_off_board :
  ¬ inb 5 (5, 0) ∧
  init 5 (5, 0) = Ok {| n := 5; start := (5, 0); board := fresh_board 5 |}.
Proof. split; [|done]. unfold inb. simpl. lia. Qed.

(** The off-board start shows only when the search runs. *)
Example solve_start_off_board :
  solve_warnsdorff {| n := 5; start := (5, 0); board := fresh_board 5 |}
  = Raise IndexError.
Proof. by vm_compute. Qed.

(** ** Freeness and legal moves *)

(** C10. On every board a run can reach, [_is_free] and [_neighbors]
    return a value for all integer coordinates, negative and too large
    ones included, and never raise. The bounds test comes first: off the
    board [_is_free] answers [False] whatever the board holds, even a
    board with no cell at all, so no cell is read there. *)
Theorem is_free_neighbors_total (s0 : KnightsTour) (pt : point) (f : frame)
    (r c : Z) :
  reach s0 pt f →
  _is_free (self f) r c = Ok (isFree (self f) (r, c)) ∧
  _neighbors (self f) r c = Ok (legalMoves (self f) (r, c)) ∧
  (_in_bounds (self f) r c = false →
   ∀ b, _is_free (set_board (self f) b) r c = Ok false).
Proof.
  intros Hr. apply reach_shaped in Hr as (_ & _ & Hwf).
  split; [by apply is_free_wf|]. split; [by apply neighbors_wf|].
  intros Hb b. by apply is_free_off_board.
Qed.

Lemma is_free_neighbors_total_witness :
  reach (corner 3) (Head 0) (enter (corner 3)) ∧
  _is_free (self (enter (corner 3))) (-1) 7
  = Ok (isFree (self (enter (corner 3))) (-1, 7)) ∧
  _neighbors (self (enter (corner 3))) (-1) 7
  = Ok (legalMoves (self (enter (corner 3))) (-1, 7)) ∧
  (_in_bounds (self (enter (corner 3))) (-1) 7 = false →
   ∀ b, _is_free (set_board (self (enter (corner 3))) b) (-1) 7 = Ok false).
Proof.
  split; [apply reach_enter|].
  apply (is_free_neighbors_total (corner 3) (Head 0) (enter (corner 3)) (-1) 7).
  apply reach_enter.
Defined.

(** C6. [_neighbors] is the specification's [legalMoves]: the eight
    offsets of [KNIGHT_MOVES] applied in their declared order, the results
    that are in bounds and unvisited kept, in that order. Every square it
    returns is on the board and reads as unvisited. *)
Theorem neighbors_legal_moves (s : KnightsTour) (r c : Z) :
  shaped s →
  _neighbors s r c
  = Ok (List.filter (isFree s) (offset (r, c) <$> KNIGHT_MOVES)) ∧
  (∀ q, isFree s q = true ↔
        inb (n s) q ∧ board_get (board s) q.1 q.2 = Ok unvisited) ∧
  ∀ l, _neighbors s r c = Ok l →
       Forall (λ q, inb (n s) q ∧
                    board_get (board s) q.1 q.2 = Ok unvisited) l.
Proof.
  intros Hwf.
  assert (Hfree : ∀ q, isFree s q = true ↔
            inb (n s) q ∧ board_get (board s) q.1 q.2 = Ok unvisited).
  { intros [qr qc]. rewrite isFree_true. simpl. split.
    - intros [Hq Hc]. split; [done|].
      by rewrite (board_get_wf _ _ _ _ Hwf Hq), Hc.
    - intros [Hq Hc]. split; [done|].
      rewrite (board_get_wf _ _ _ _ Hwf Hq) in Hc. by injection Hc. }
  split; [by apply neighbors_wf|]. split; [done|].
  intros l. rewrite neighbors_wf by done. intros [= <-].
  apply Forall_forall. intros q Hq.
  apply legalMoves_elem in Hq as [Hq _]. by apply Hfree.
Qed.

Lemma corner_marked_shaped : shaped corner_marked.
Proof. split; [reflexivity|]. repeat constructor. Defined.

Lemma neighbors_legal_moves_witness :
  shaped corner_marked ∧
  _neighbors corner_marked 0 0
  = Ok (List.filter (isFree corner_marked) (offset (0, 0) <$> KNIGHT_MOVES)) ∧
  (∀ q, isFree corner_marked q = true ↔
        inb (n corner_marked) q ∧
        board_get (board corner_marked) q.1 q.2 = Ok unvisited) ∧
  ∀ l, _neighbors corner_marked 0 0 = Ok l →
       Forall (λ q, inb (n corner_marked) q ∧
                    board_get (board corner_marked) q.1 q.2 = Ok unvisited) l.
Proof.
  split; [apply corner_marked_shaped|].
  apply (neighbors_legal_moves corner_marked 0 0). apply corner_marked_shaped.
Defined.

(** ** Ranking *)

(** The stable ascending sort of a list is unique, so [list.sort] is
    determined by its contract and any stable sorting procedure models it. *)
Lemma stable_sort_unique {A : Type} (kf : A → nat) (l o1 o2 : list A) :
  stable_sort_of kf l o1 → stable_sort_of kf l o2 → o1 = o2.
Proof.
  intros (_ & Hs1 & Hf1) (_ & Hs2 & Hf2).
  assert (Hf : ∀ k, List.filter (λ a, (kf a =? k)%nat) o1
                  = List.filter (λ a, (kf a =? k)%nat) o2).
  { intros k. by rewrite Hf1, Hf2. }
  clear Hf1 Hf2 l. revert o2 Hs2 Hf.
  induction Hs1 as [|a o1 Hs1 IH Ha]; intros o2 Hs2 Hf.
  - destruct o2 as [|b o2]; [done|].
    specialize (Hf (kf b)). simpl in Hf. by rewrite Nat.eqb_refl in Hf.
  - destruct Hs2 as [|b o2 Hs2 Hb].
    { specialize (Hf (kf a)). simpl in Hf. by rewrite Nat.eqb_refl in Hf. }
    rewrite Forall_forall in Ha, Hb.
    assert (Hle1 : (kf a ≤ kf b)%nat).
    { assert (In b (List.filter (λ x, (kf x =? kf b)%nat) (a :: o1))) as Hin.
      { rewrite Hf. simpl. rewrite Nat.eqb_refl. by left. }
      apply filter_In in Hin as [[->|Hin] _]; [done|].
      apply Ha. by apply list_elem_of_In. }
    assert (Hle2 : (kf b ≤ kf a)%nat).
    { assert (In a (List.filter (λ x, (kf x =? kf a)%nat) (b :: o2))) as Hin.
      { rewrite <- Hf. simpl. rewrite Nat.eqb_refl. by left. }
      apply filter_In in Hin as [[->|Hin] _]; [done|].
      apply Hb. by apply list_elem_of_In. }
    assert (Hk : kf a = kf b) by lia.
    pose proof (Hf (kf a)) as Hhd. simpl in Hhd.
    rewrite <- Hk, Nat.eqb_refl in Hhd. injection Hhd as <- Htl.
    f_equal. apply IH; [done|]. intros k.
    destruct (decide (k = kf a)) as [->|Hne]; [done|].
    specialize (Hf k). simpl in Hf.
    destruct (Nat.eqb_spec (kf a) k); [done|]. done.
Qed.

(** C5. On a board of side N, [_warnsdorff_sort] returns the stable
    ascending sort of the list [_neighbors] returns, by the number of legal
    moves from each candidate counted on the same board (nothing is marked
    in between): a permutation of the legal moves, onward counts ascending,
    and candidates of equal count in the order of the legal-moves list. The
    result depends on the size and the board only, so a second call on the
    same state gives the same list. *)
Theorem warnsdorff_sort_stable (s : KnightsTour) (r c : Z) :
  shaped s →
  ∃ moves out,
    _neighbors s r c = Ok moves ∧
    _warnsdorff_sort s r c = Ok out ∧
    (∀ q, onward s q = Ok (length (legalMoves s q))) ∧
    out ≡ₚ moves ∧
    StronglySorted (λ a b, (mobility s a ≤ mobility s b)%nat) out ∧
    (∀ k, List.filter (λ a, (mobility s a =? k)%nat) out
        = List.filter (λ a, (mobility s a =? k)%nat) moves) ∧
    (∀ s', n s' = n s → board s' = board s →
           _warnsdorff_sort s' r c = Ok out).
Proof.
  intros Hwf.
  destruct (warnsdorff_sort_wf s r c Hwf) as (out & Hout & Hp & Hs & Hf).
  exists (legalMoves s (r, c)), out.
  split; [by apply neighbors_wf|]. split; [done|].
  split. { intros [qr qc]. unfold onward. simpl. by rewrite neighbors_wf. }
  do 3 (split; [done|]).
  intros [n' st' b'] Hn Hb. simpl in *. subst. destruct s as [k st b].
  simpl in *. rewrite <- Hout. reflexivity.
Qed.

Lemma warnsdorff_sort_stable_witness :
  shaped corner_marked ∧
  ∃ moves out,
    _neighbors corner_marked 0 0 = Ok moves ∧
    _warnsdorff_sort corner_marked 0 0 = Ok out ∧
    (∀ q, onward corner_marked q = Ok (length (legalMoves corner_marked q))) ∧
    out ≡ₚ moves ∧
    StronglySorted
      (λ a b, (mobility corner_marked a ≤ mobility corner_marked b)%nat) out ∧
    (∀ k, List.filter (λ a, (mobility corner_marked a =? k)%nat) out
        = List.filter (λ a, (mobility corner_marked a =? k)%nat) moves) ∧
    (∀ s', n s' = n corner_marked → board s' = board corner_marked →
           _warnsdorff_sort s' 0 0 = Ok out).
Proof.
  split; [apply corner_marked_shaped|].
  apply (warnsdorff_sort_stable corner_marked 0 0). apply corner_marked_shaped.
Defined.

(** Ties follow the offset order, a lower count goes first. *)
Example warnsdorff_sort_5x5 :
  _warnsdorff_sort (corner 5) 2 2
  = Ok [(4, 3); (3, 4); (1, 4); (0, 3); (0, 1); (1, 0); (3, 0); (4, 1)] ∧
  _warnsdorff_sort (corner 5) 1 0 = Ok [(3, 1); (0, 2); (2, 2)].
Proof. by vm_compute. Qed.

(** ** The search *)

(** C9. On the board of one square, whatever it held before, the call
    returns the path [[(0, 0)]]: it leaves from the first [return] during
    step 0, with no call of [_warnsdorff_sort] made. *)
Theorem solve_one_square (b : list (list Z)) :
  init 1 (0, 0) = Ok (mkKnightsTour 1 (0, 0) [[unvisited]]) ∧
  solve_warnsdorff (mkKnightsTour 1 (0, 0) b) = Ok (Some [(0, 0)]) ∧
  run (mkKnightsTour 1 (0, 0) b)
  = Ok (InLoop RetTour 0
          {| self := mkKnightsTour 1 (0, 0) [[0]];
             path := [(0, 0)]; pos := (0, 0); calls := 0 |}
          (Some [(0, 0)])).
Proof. by vm_compute. Qed.

(** C8. From a start square on the board the call leaves through one of
    the two [return] statements inside the loop: the first at step N²-1,
    or the second at an earlier step where the ranking came back empty.
    The [return None] after the loop is not reached, and nothing is
    raised. *)
Theorem solve_returns_inside_loop (s0 : KnightsTour) :
  1 ≤ n s0 → inb (n s0) (start s0) →
  ∃ at_ k f v,
    run s0 = Ok (InLoop at_ k f v) ∧
    ((at_ = RetTour ∧ k = n s0 * n s0 - 1 ∧ v = Some (path f)) ∨
     (at_ = RetDeadEnd ∧ 0 ≤ k < n s0 * n s0 - 1 ∧ v = None ∧
      _warnsdorff_sort (self f) (pos f).1 (pos f).2 = Ok [])).
Proof.
  intros _ Hst. destruct (run_terminal s0 Hst) as (fin & Hrun & Hfin).
  destruct fin as [[] k f v|f]; simpl in Hfin; [| |done].
  - destruct Hfin as (_ & -> & ->). exists RetTour. eauto 10.
  - destruct Hfin as (f1 & Hr & Hk & Hsort & -> & ->).
    exists RetDeadEnd, k, (counted f1), None. split; [done|]. right.
    split; [done|]. split; [|done].
    inversion Hr; subst. lia.
Qed.

Lemma solve_returns_inside_loop_witness :
  1 ≤ n (corner 3) ∧ inb (n (corner 3)) (start (corner 3)) ∧
  ∃ at_ k f v,
    run (corner 3) = Ok (InLoop at_ k f v) ∧
    ((at_ = RetTour ∧ k = n (corner 3) * n (corner 3) - 1 ∧ v = Some (path f)) ∨
     (at_ = RetDeadEnd ∧ 0 ≤ k < n (corner 3) * n (corner 3) - 1 ∧ v = None ∧
      _warnsdorff_sort (self f) (pos f).1 (pos f).2 = Ok [])).
Proof.
  assert (H1 : 1 ≤ n (corner 3)) by (simpl; lia).
  assert (H2 : inb (n (corner 3)) (start (corner 3)))
    by (unfold inb; simpl; lia).
  split; [exact H1|]. split; [exact H2|].
  exact (solve_returns_inside_loop (corner 3) H1 H2).
Defined.

Lemma all_squares_elem k q : q ∈ all_squares k ↔ inb k q.
Proof.
  destruct q as [r c]. unfold all_squares, inb. simpl.
  rewrite list_elem_of_In, in_prod_iff, <- !list_elem_of_In, !elem_of_seqZ.
  lia.
Qed.

Lemma all_squares_length k : 0 ≤ k → Z.of_nat (length (all_squares k)) = k * k.
Proof.
  intros Hk. unfold all_squares. rewrite length_prod, length_seqZ. nia.
Qed.

(** A path without repetition that stays on the board and has as many
    squares as the board visits every square. *)
Lemma full_path_covers k (pth : list square) :
  0 ≤ k → NoDup pth → Forall (inb k) pth →
  Z.of_nat (length pth) = k * k →
  ∀ q, inb k q → q ∈ pth.
Proof.
  intros Hk Hnd Hin Hlen q Hq.
  assert (Hsub : pth ⊆+ all_squares k).
  { apply NoDup_submseteq; [done|]. intros x Hx.
    apply all_squares_elem. rewrite Forall_forall in Hin. by apply Hin. }
  apply submseteq_length_Permutation in Hsub.
  - rewrite Hsub. by apply all_squares_elem.
  - pose proof (all_squares_length k Hk). lia.
Qed.

(** C1. From a start square on a board of side at least 5 the call
    raises nothing and returns either [None] or a path of exactly N²
    squares, without repetition, whose squares are exactly those of the
    board. *)
Theorem solve_full_tour_or_none (s0 : KnightsTour) :
  5 ≤ n s0 → inb (n s0) (start s0) →
  ∃ v, solve_warnsdorff s0 = Ok v ∧
       match v with
       | Some p =>
           Z.of_nat (length p) = n s0 * n s0 ∧ NoDup p ∧
           ∀ q, inb (n s0) q ↔ q ∈ p
       | None => True
       end.
Proof.
  intros Hn Hst. destruct (run_terminal s0 Hst) as (fin & Hrun & Hfin).
  unfold solve_warnsdorff. rewrite Hrun. simpl. eexists. split; [done|].
  destruct fin as [[] k f v|f]; simpl in *; [| |done].
  - destruct Hfin as (Hr & -> & ->).
    destruct (reach_inv _ _ _ Hst Hr) as (Hnf & _ & Hc & Hlen & _).
    destruct Hc as [_ Hin Hnd _ _ _]. rewrite Hnf in Hin.
    split; [lia|]. split; [done|]. intros q. split.
    + apply full_path_covers; [lia|done|done|lia].
    + rewrite Forall_forall in Hin. apply Hin.
  - by destruct Hfin as (f1 & _ & _ & _ & _ & ->).
Qed.

Lemma solve_full_tour_or_none_witness :
  5 ≤ n (corner 5) ∧ inb (n (corner 5)) (start (corner 5)) ∧
  ∃ v, solve_warnsdorff (corner 5) = Ok v ∧
       match v with
       | Some p =>
           Z.of_nat (length p) = n (corner 5) * n (corner 5) ∧ NoDup p ∧
           ∀ q, inb (n (corner 5)) q ↔ q ∈ p
       | None => True
       end.
Proof.
  assert (H1 : 5 ≤ n (corner 5)) by (simpl; lia).
  assert (H2 : inb (n (corner 5)) (start (corner 5)))
    by (unfold inb; simpl; lia).
  split; [exact H1|]. split; [exact H2|].
  exact (solve_full_tour_or_none (corner 5) H1 H2).
Defined.

(** The two boards the specification singles out. *)
Example solve_5x5_corner : solve_warnsdorff (corner 5) = Ok (Some tour_5x5).
Proof. by vm_compute. Qed.

Example solve_8x8_corner :
  ∃ p, solve_warnsdorff (corner 8) = Ok (Some p) ∧ length p = 64%nat.
Proof. eexists. split; [by vm_compute|done]. Qed.

(** *** Consecutive squares *)

Lemma chain_snoc l x :
  chain l → (∀ p, last l = Some p → knight_step p x) → chain (l ++ [x]).
Proof.
  intros Hch Hlast i p q Hp Hq.
  apply lookup_snoc_Some in Hq as [[Hi Hq]|[Hi <-]].
  - rewrite lookup_app_l in Hp by lia. by eapply Hch.
  - apply Hlast. rewrite last_lookup, <- Hi. simpl.
    by rewrite lookup_app_l in Hp by lia.
Qed.

Lemma neighbors_from_offsets s r c offsets l :
  neighbors_from s r c offsets = Ok l →
  ∀ q, q ∈ l → ∃ d, d ∈ offsets ∧ q = offset (r, c) d.
Proof.
  revert l. induction offsets as [|[dr dc] rest IH]; intros l; simpl.
  - intros [= <-] q Hq. by apply elem_of_nil in Hq.
  - destruct (_is_free s (r + dr) (c + dc)) as [free|]; [|done]. simpl.
    destruct (neighbors_from s r c rest) as [tl|]; [|done]. simpl.
    intros [= <-] q Hq.
    assert (q = (r + dr, c + dc) ∨ q ∈ tl) as [->|Hq'].
    { destruct free; [by apply elem_of_cons in Hq|by right]. }
    + exists (dr, dc). split; [by left|done].
    + destruct (IH tl eq_refl q Hq') as (d & Hd & ->).
      exists d. split; [by right|done].
Qed.

Lemma decorate_undecorate {A : Type} (key : A → result nat) (l : list A) d :
  decorate key l = Ok d → d.*2 = l.
Proof.
  revert d. induction l as [|x l IH]; intros d; simpl.
  - by intros [= <-].
  - destruct (key x) as [k|]; [|done]. simpl.
    destruct (decorate key l) as [tl|]; [|done]. simpl.
    intros [= <-]. simpl. f_equal. by apply IH.
Qed.

Lemma list_sort_perm {A : Type} (key : A → result nat) (l out : list A) :
  list_sort key l = Ok out → out ≡ₚ l.
Proof.
  unfold list_sort. destruct (decorate key l) as [d|] eqn:Hd; [|done].
  simpl. intros [= <-]. apply decorate_undecorate in Hd as <-.
  by rewrite sort_keyed_perm.
Qed.

Lemma warnsdorff_sort_steps s r c out :
  _warnsdorff_sort s r c = Ok out → ∀ q, q ∈ out → knight_step (r, c) q.
Proof.
  unfold _warnsdorff_sort, _neighbors.
  destruct (neighbors_from s r c KNIGHT_MOVES) as [l|] eqn:Hl; [|done].
  simpl. intros Hs q Hq. apply list_sort_perm in Hs. rewrite Hs in Hq.
  destruct (neighbors_from_offsets _ _ _ _ _ Hl q Hq) as (d & Hd & ->).
  by apply knight_step_offset.
Qed.

Lemma loop_chain steps :
  ∀ f fin,
    chain (path f) → (∀ p, last (path f) = Some p → knight_step p (pos f)) →
    loop steps f = Ok fin →
    chain (path (final_frame fin)) ∧
    ∀ p, returned fin = Some p → p = path (final_frame fin).
Proof.
  induction steps as [|step rest IH]; intros f fin Hch Hlast; simpl.
  - intros [= <-]. done.
  - unfold visit. destruct (board_set _ _ _ _) as [b'|]; [|done]. simpl.
    set (f1 := {| self := set_board (self f) b'; path := path f ++ [pos f];
                  pos := pos f; calls := calls f |}).
    assert (Hch1 : chain (path f1)) by (by apply chain_snoc).
    unfold advance. destruct (step =? _).
    { simpl. intros [= <-]. simpl. split; [done|]. by intros p [= <-]. }
    destruct (_warnsdorff_sort _ _ _) as [[|m ms]|] eqn:Hs; simpl; [| |done].
    { intros [= <-]. done. }
    apply IH; simpl; [done|].
    intros p. rewrite last_snoc. intros [= <-].
    rewrite (surjective_pairing (pos f)).
    eapply warnsdorff_sort_steps; [exact Hs|by left].
Qed.

(** C7. In a path the call returns, each square is one of the eight
    knight offsets away from the square before it: the difference belongs
    to [KNIGHT_MOVES], that is, it is 1 in one coordinate and 2 in the
    other up to sign. *)
Theorem tour_steps_are_knight_moves (s0 : KnightsTour) (p : list square)
    (i : nat) (a b : square) :
  solve_warnsdorff s0 = Ok (Some p) →
  p !! i = Some a → p !! S i = Some b →
  (b.1 - a.1, b.2 - a.2) ∈ KNIGHT_MOVES ∧
  ((Z.abs (b.1 - a.1) = 1 ∧ Z.abs (b.2 - a.2) = 2) ∨
   (Z.abs (b.1 - a.1) = 2 ∧ Z.abs (b.2 - a.2) = 1)).
Proof.
  unfold solve_warnsdorff, run.
  destruct (loop _ _) as [fin|] eqn:Hloop; [|done]. simpl. intros [= Hret].
  apply loop_chain in Hloop as [Hch Hp].
  - rewrite (Hp p Hret). intros Ha Hb.
    pose proof (Hch i a b Ha Hb) as Hstep. split; [done|].
    by apply (KNIGHT_MOVES_geometry (b.1 - a.1, b.2 - a.2)).
  - intros j x y Hx. simpl in Hx. by rewrite lookup_nil in Hx.
  - done.
Qed.

Lemma tour_steps_are_knight_moves_witness :
  solve_warnsdorff (corner 5) = Ok (Some tour_5x5) ∧
  tour_5x5 !! 1%nat = Some (2, 1) ∧ tour_5x5 !! 2%nat = Some (4, 0) ∧
  (4 - 2, 0 - 1) ∈ KNIGHT_MOVES ∧
  ((Z.abs (4 - 2) = 1 ∧ Z.abs (0 - 1) = 2) ∨
   (Z.abs (4 - 2) = 2 ∧ Z.abs (0 - 1) = 1)).
Proof.
  assert (H1 : solve_warnsdorff (corner 5) = Ok (Some tour_5x5))
    by (vm_compute; reflexivity).
  assert (H2 : tour_5x5 !! 1%nat = Some (2, 1)) by reflexivity.
  assert (H3 : tour_5x5 !! 2%nat = Some (4, 0)) by reflexivity.
  split; [exact H1|]. split; [exact H2|]. split; [exact H3|].
  exact (tour_steps_are_knight_moves (corner 5) tour_5x5 1 (2, 1) (4, 0)
           H1 H2 H3).
Defined.

(** *** The state during a run *)

Lemma reach_first_marked : reach (corner 3) (Marked 0) first_marked.
Proof.
  apply (reach_visit (corner 3) 0 (enter (corner 3)) first_marked).
  - apply reach_enter.
  - simpl. lia.
  - reflexivity.
Defined.

Lemma reach_first_chosen : reach (corner 3) (Head 1) first_chosen.
Proof.
  apply (reach_advance (corner 3) 0 first_marked first_chosen).
  - apply reach_first_marked.
  - reflexivity.
Defined.

(** C2 fails as stated: at the top of the second iteration of the run of
    [corner 3] the current square is the chosen [(2, 1)], while the path is
    [[(0, 0)]]: the current square is neither the last element of the path
    nor the start square. *)
Lemma chosen_square_is_not_last_of_path :
  reach (corner 3) (Head 1) first_chosen ∧
  path first_chosen = [(0, 0)] ∧
  pos first_chosen = (2, 1) ∧
  last (path first_chosen) ≠ Some (pos first_chosen) ∧
  pos first_chosen ≠ start (corner 3).
Proof. split; [apply reach_first_chosen|]. by repeat split. Qed.

(** C2, as the code has it. At the top of every iteration and after every
    mark-and-append of a run that started on the board: a cell of the
    board holds a step index exactly when its square is in the path, that
    index is the position of the square in the path, and no square occurs
    twice in the path. After the mark-and-append the current square is the
    last element of the path. At the top of an iteration it is not in the
    path yet: it is the start square at the first iteration, when the path
    is empty, and afterwards the square just chosen, one knight move away
    from the last element of the path. *)
Theorem run_invariant (s0 : KnightsTour) (pt : point) (f : frame) :
  inb (n s0) (start s0) → reach s0 pt f →
  (∀ q, inb (n s0) q →
        ∃ v, board_get (board (self f)) q.1 q.2 = Ok v ∧
             (v ≠ unvisited ↔ q ∈ path f) ∧
             (∀ i, path f !! i = Some q → v = Z.of_nat i)) ∧
  NoDup (path f) ∧
  match pt with
  | Marked k => last (path f) = Some (pos f)
  | Head k =>
      pos f ∉ path f ∧
      (k = 0 → path f = [] ∧ pos f = start s0) ∧
      (k ≠ 0 → ∃ p, last (path f) = Some p ∧ knight_step p (pos f))
  end.
Proof.
  intros Hst Hr.
  destruct (reach_inv s0 pt f Hst Hr) as (Hn & _ & Hc & Hpt).
  destruct Hc as [Hwf Hin Hnd Hmk Hix _]. rewrite Hn in *.
  split; [|split; [done|]].
  - intros q Hq. exists (cell (board (self f)) q.1 q.2).
    split; [|split].
    + apply (board_get_wf (n s0)); [done|by destruct q].
    + by apply Hmk.
    + intros i. apply Hix.
  - destruct pt as [k|k]; [|by destruct Hpt].
    destruct Hpt as (Hlen & Hfree & Hk0 & Hlast).
    apply isFree_true in Hfree as [Hpos Hcell]. rewrite Hn in Hpos.
    split; [|split].
    + intros Hp. by apply (Hmk _ Hpos) in Hp.
    + intros ->. split; [|by apply Hk0].
      by destruct (path f).
    + intros Hk. destruct (last (path f)) as [p|] eqn:Hl.
      * exists p. split; [done|]. by apply Hlast.
      * apply last_None in Hl. rewrite Hl in Hlen. simpl in Hlen. lia.
Qed.

Lemma run_invariant_witness :
  inb (n (corner 3)) (start (corner 3)) ∧
  reach (corner 3) (Marked 0) first_marked ∧
  (∀ q, inb (n (corner 3)) q →
        ∃ v, board_get (board (self first_marked)) q.1 q.2 = Ok v ∧
             (v ≠ unvisited ↔ q ∈ path first_marked) ∧
             (∀ i, path first_marked !! i = Some q → v = Z.of_nat i)) ∧
  NoDup (path first_marked) ∧
  last (path first_marked) = Some (pos first_marked).
Proof.
  assert (H1 : inb (n (corner 3)) (start (corner 3)))
    by (unfold inb; simpl; lia).
  split; [exact H1|]. split; [exact reach_first_marked|].
  exact (run_invariant (corner 3) (Marked 0) first_marked H1
           reach_first_marked).
Defined.

(** *** Dead ends *)

(** C4, as the code has it. When, before step N²-1, the square just
    visited has no legal unvisited move, that is, each of the eight knight
    offsets leads from it off the board or to a cell that does not read as
    unvisited, the call returns [None] from the second [return] of the
    loop, at that step and with no further move tried. The value holds
    neither the partial path nor the step: the path is a local of the call
    and is dropped; the step marks stay on the board of the engine. *)
Theorem dead_end_returns_None (s0 : KnightsTour) (k : Z) (f : frame) :
  reach s0 (Marked k) f → k ≠ n s0 * n s0 - 1 →
  (∀ d, d ∈ KNIGHT_MOVES →
        ¬ (inb (n s0) (offset (pos f) d) ∧
           board_get (board (self f))
             (offset (pos f) d).1 (offset (pos f) d).2 = Ok unvisited)) →
  run s0 = Ok (InLoop RetDeadEnd k (counted f) None) ∧
  solve_warnsdorff s0 = Ok None.
Proof.
  intros Hr Hk Hstuck.
  destruct (reach_shaped _ _ _ Hr) as (Hn & _ & Hwf).
  assert (Hsort : _warnsdorff_sort (self f) (pos f).1 (pos f).2 = Ok []).
  { destruct (warnsdorff_sort_wf _ (pos f).1 (pos f).2 Hwf)
      as (out & Hout & Hperm & _).
    rewrite <- surjective_pairing in Hperm.
    destruct out as [|m rest]; [done|]. exfalso.
    assert (Hm : m ∈ legalMoves (self f) (pos f)).
    { rewrite <- Hperm. by left. }
    apply legalMoves_elem in Hm as (Hfree & d & Hd & ->).
    apply isFree_true in Hfree as [Hin Hcell].
    apply (Hstuck d Hd). rewrite <- Hn. split; [done|].
    rewrite (board_get_wf (n (self f))); [by rewrite Hcell|done|].
    by destruct (offset (pos f) d). }
  assert (Hrun : run s0 = Ok (InLoop RetDeadEnd k (counted f) None)).
  { rewrite (run_continues s0 _ _ Hr). simpl. unfold resume, advance.
    rewrite Hn. destruct (Z.eqb_spec k (n s0 * n s0 - 1)); [done|].
    by rewrite Hsort. }
  split; [done|]. unfold solve_warnsdorff. by rewrite Hrun.
Qed.

Lemma reach_stuck_2x2 : reach (corner 2) (Marked 0) stuck_2x2.
Proof.
  apply (reach_visit (corner 2) 0 (enter (corner 2)) stuck_2x2).
  - apply reach_enter.
  - simpl. lia.
  - reflexivity.
Defined.

Lemma dead_end_returns_None_witness :
  reach (corner 2) (Marked 0) stuck_2x2 ∧
  0 ≠ n (corner 2) * n (corner 2) - 1 ∧
  (∀ d, d ∈ KNIGHT_MOVES →
        ¬ (inb (n (corner 2)) (offset (pos stuck_2x2) d) ∧
           board_get (board (self stuck_2x2))
             (offset (pos stuck_2x2) d).1 (offset (pos stuck_2x2) d).2
           = Ok unvisited)) ∧
  run (corner 2) = Ok (InLoop RetDeadEnd 0 (counted stuck_2x2) None) ∧
  solve_warnsdorff (corner 2) = Ok None.
Proof.
  assert (H2 : 0 ≠ n (corner 2) * n (corner 2) - 1) by (simpl; lia).
  assert (H3 : ∀ d, d ∈ KNIGHT_MOVES →
            ¬ (inb (n (corner 2)) (offset (pos stuck_2x2) d) ∧
               board_get (board (self stuck_2x2))
                 (offset (pos stuck_2x2) d).1 (offset (pos stuck_2x2) d).2
               = Ok unvisited)).
  { intros d Hd [[Hr Hc] _]. apply KNIGHT_MOVES_geometry in Hd.
    destruct d as [dr dc]. simpl in *. lia. }
  split; [exact reach_stuck_2x2|]. split; [exact H2|]. split; [exact H3|].
  exact (dead_end_returns_None (corner 2) 0 stuck_2x2 reach_stuck_2x2 H2 H3).
Defined.

(** C4 fails as stated: the runs of [corner 2] and [corner 3] stop at dead
    ends at different steps (0 and 7) with different partial paths, and
    both return the bare [None]. No reading of the returned value gives
    back the partial path and the step reached. *)
Lemma dead_end_value_carries_nothing :
  (∃ f2, run (corner 2) = Ok (InLoop RetDeadEnd 0 f2 None) ∧
         path f2 = [(0, 0)]) ∧
  (∃ f3, run (corner 3) = Ok (InLoop RetDeadEnd 7 f3 None) ∧
         path f3 = [(0, 0); (2, 1); (0, 2); (1, 0);
                    (2, 2); (0, 1); (2, 0); (1, 2)]) ∧
  solve_warnsdorff (corner 2) = Ok None ∧
  solve_warnsdorff (corner 3) = Ok None ∧
  ¬ ∃ carried : option (list square) → list square * Z,
      ∀ s0 k f v, run s0 = Ok (InLoop RetDeadEnd k f v) →
                  carried v = (path f, k).
Proof.
  assert (H2 : ∃ f2, run (corner 2) = Ok (InLoop RetDeadEnd 0 f2 None) ∧
                     path f2 = [(0, 0)]).
  { eexists. split; [by vm_compute|done]. }
  assert (H3 : ∃ f3, run (corner 3) = Ok (InLoop RetDeadEnd 7 f3 None) ∧
                     path f3 = [(0, 0); (2, 1); (0, 2); (1, 0);
                                (2, 2); (0, 1); (2, 0); (1, 2)]).
  { eexists. split; [by vm_compute|done]. }
  split; [done|]. split; [done|].
  split; [by vm_compute|]. split; [by vm_compute|].
  intros (carried & Hc).
  destruct H2 as (f2 & Hr2 & Hp2), H3 as (f3 & Hr3 & Hp3).
  pose proof (Hc _ _ _ _ Hr2) as E2. pose proof (Hc _ _ _ _ Hr3) as E3.
  rewrite E2 in E3. by injection E3.
Qed.


(** ** Further properties of the search *)

(** *** What an iteration changes *)

Lemma visit_Ok f k f1 :
  visit f k = Ok f1 →
  ∃ b', board_set (board (self f)) (pos f).1 (pos f).2 k = Ok b' ∧
        f1 = {| self := set_board (self f) b'; path := path f ++ [pos f];
                pos := pos f; calls := calls f |}.
Proof.
  unfold visit. destruct (board_set _ _ _ _) as [b'|]; [|done].
  intros [= <-]. eauto.
Qed.

Lemma advance_Return f k at_ f2 v :
  advance f k = Ok (Return at_ f2 v) →
  self f2 = self f ∧ path f2 = path f ∧ pos f2 = pos f ∧
  ((at_ = RetTour ∧ v = Some (path f)) ∨ (at_ = RetDeadEnd ∧ v = None)).
Proof.
  unfold advance. destruct (k =? _).
  - intros [= <- <- <-]. repeat split; auto.
  - destruct (_warnsdorff_sort _ _ _) as [[|m rest]|]; simpl; try done.
    intros [= <- <- <-]. repeat split; auto.
Qed.

Lemma loop_keeps_engine steps :
  ∀ f fin, loop steps f = Ok fin →
           n (self (final_frame fin)) = n (self f) ∧
           start (self (final_frame fin)) = start (self f).
Proof.
  induction steps as [|step rest IH]; intros f fin; simpl.
  - by intros [= <-].
  - destruct (visit f step) as [f1|] eqn:Hv; [|done]. simpl.
    apply visit_Ok in Hv as (b' & _ & ->).
    destruct (advance _ step) as [[f2|at_ f2 v]|] eqn:Ha; simpl; [| |done].
    + apply advance_Next in Ha as (m & ms & _ & ->).
      intros Hl. by apply IH in Hl.
    + apply advance_Return in Ha as (Hs & _). intros [= <-]. simpl.
      by rewrite Hs.
Qed.

(** A second call on the same engine starts from a reset board and gives
    what the first call gave: the same value, from the same [return], and
    the same marks on the board. *)
Theorem solve_again (s0 : KnightsTour) (fin : finished) :
  run s0 = Ok fin →
  run (self (final_frame fin)) = Ok fin ∧
  solve_warnsdorff (self (final_frame fin)) = solve_warnsdorff s0.
Proof.
  intros Hrun.
  assert (Hsame : run (self (final_frame fin)) = run s0).
  { destruct (loop_keeps_engine _ _ _ Hrun) as [Hn Hs]. simpl in Hn, Hs.
    unfold run, enter, set_board. by rewrite Hn, Hs. }
  split; [by rewrite Hsame|]. unfold solve_warnsdorff. by rewrite Hsame.
Qed.

Lemma run_corner_3 : run (corner 3) = Ok stuck_3x3.
Proof. by vm_compute. Defined.

Lemma solve_again_witness :
  run (corner 3) = Ok stuck_3x3 ∧
  run (self (final_frame stuck_3x3)) = Ok stuck_3x3 ∧
  solve_warnsdorff (self (final_frame stuck_3x3))
  = solve_warnsdorff (corner 3).
Proof.
  split; [exact run_corner_3|].
  exact (solve_again (corner 3) stuck_3x3 run_corner_3).
Defined.


(** *** Start squares off the board *)

Lemma py_index_Some {A : Type} (l : list A) i :
  is_Some (py_index l i) ↔ - Z.of_nat (length l) ≤ i < Z.of_nat (length l).
Proof.
  unfold py_index.
  destruct (Z.leb_spec 0 i), (Z.ltb_spec i (Z.of_nat (length l))),
    (Z.leb_spec (- Z.of_nat (length l)) i), (Z.ltb_spec i 0); simpl;
    split; intros Hs; try (by eexists); try lia; by destruct Hs.
Qed.

Lemma py_index_lt {A : Type} (l : list A) i k :
  py_index l i = Some k → (k < length l)%nat.
Proof.
  unfold py_index.
  destruct (Z.leb_spec 0 i), (Z.ltb_spec i (Z.of_nat (length l))),
    (Z.leb_spec (- Z.of_nat (length l)) i), (Z.ltb_spec i 0); simpl;
    intros [= <-]; lia.
Qed.

Lemma getitem_Ok {A : Type} (l : list A) i :
  (∃ x, getitem l i = Ok x) ↔
  - Z.of_nat (length l) ≤ i < Z.of_nat (length l).
Proof.
  rewrite <- py_index_Some. unfold getitem.
  destruct (py_index l i) as [k|] eqn:Hk.
  - apply py_index_lt in Hk. apply lookup_lt_is_Some_2 in Hk as [x ->].
    split; eauto.
  - split; [by intros [x ?]|by intros [x ?]].
Qed.

Lemma setitem_Ok {A : Type} (l : list A) i v :
  (∃ l', setitem l i v = Ok l') ↔
  - Z.of_nat (length l) ≤ i < Z.of_nat (length l).
Proof.
  rewrite <- py_index_Some. unfold setitem.
  destruct (py_index l i) as [k|].
  - split; eauto.
  - split; [by intros [x ?]|by intros [x ?]].
Qed.

Lemma result_Ok_or_IndexError {A : Type} (m : result A) :
  m ≠ Raise ValueError → (¬ ∃ x, m = Ok x) → m = Raise IndexError.
Proof. destruct m as [x|[]]; [intros _ H; destruct H; eauto|done|done]. Qed.

(** On a board of side [k] the store [board[r][c] = v] goes through
    exactly for the coordinates in [-k, k); elsewhere it raises
    [IndexError]. *)
Lemma board_set_Ok k b r c v :
  wf_board k b →
  ((∃ b', board_set b r c v = Ok b') ↔ in_reach k (r, c)) ∧
  (¬ in_reach k (r, c) → board_set b r c v = Raise IndexError).
Proof.
  intros [Hlen Hrows].
  assert (Hiff : (∃ b', board_set b r c v = Ok b') ↔ in_reach k (r, c)).
  { unfold board_set, in_reach. simpl. split.
    - intros [b' Hb'].
      destruct (getitem b r) as [row|] eqn:Hrow; [|done]. simpl in Hb'.
      destruct (setitem row c v) as [row'|] eqn:Hrow'; [|done].
      assert (Hr : ∃ x, getitem b r = Ok x) by eauto.
      assert (Hc : ∃ x, setitem row c v = Ok x) by eauto.
      apply getitem_Ok in Hr. apply setitem_Ok in Hc.
      apply getitem_elem in Hrow. rewrite Forall_forall in Hrows.
      rewrite (Hrows _ Hrow) in Hc. lia.
    - intros [Hr Hc].
      destruct (proj2 (getitem_Ok b r)) as [row Hrow]; [lia|].
      rewrite Hrow. simpl.
      pose proof (getitem_elem _ _ _ Hrow) as Hin.
      rewrite Forall_forall in Hrows. apply Hrows in Hin.
      destruct (proj2 (setitem_Ok row c v)) as [row' Hrow']; [lia|].
      rewrite Hrow'. simpl. apply setitem_Ok. lia. }
  split; [done|]. intros Hout.
  apply result_Ok_or_IndexError; [|by rewrite Hiff].
  unfold board_set, getitem, setitem.
  repeat (case_match; simpl; try done).
Qed.

Lemma loop_cons step rest f :
  loop (step :: rest) f
  = (f1 ← visit f step;
     ctl ← advance f1 step;
     match ctl with
     | Next f2 => loop rest f2
     | Return at_ f2 v => Ok (InLoop at_ step f2 v)
     end).
Proof. done. Qed.

(** The store of [visit] goes through exactly for a square within reach
    of the subscripts, and leaves a board of the same shape. *)
Lemma visit_in_reach f k :
  shaped (self f) →
  (in_reach (n (self f)) (pos f) →
   ∃ f1, visit f k = Ok f1 ∧ shaped (self f1)) ∧
  (¬ in_reach (n (self f)) (pos f) → visit f k = Raise IndexError).
Proof.
  intros Hwf. unfold visit. destruct (pos f) as [r c]. simpl.
  destruct (board_set_Ok _ _ r c k Hwf) as [Hiff Hraise]. split.
  - intros Hin. apply Hiff in Hin as [b' Hb']. rewrite Hb'. simpl.
    eexists. split; [done|]. unfold shaped. simpl.
    by eapply board_set_shape.
  - intros Hout. by rewrite Hraise.
Qed.

(** On a board of the right shape the ranking raises nothing, and the
    square it chooses is on the board. *)
Lemma advance_safe f k :
  shaped (self f) →
  ∃ ctl, advance f k = Ok ctl ∧
         match ctl with
         | Next f2 => shaped (self f2) ∧ inb (n (self f2)) (pos f2)
         | Return _ _ _ => True
         end.
Proof.
  intros Hwf. unfold advance. destruct (k =? _); [by eexists|].
  destruct (warnsdorff_sort_wf (self f) (pos f).1 (pos f).2 Hwf)
    as (out & -> & Hperm & _).
  simpl. destruct out as [|m ms]; [by eexists|].
  eexists. split; [done|]. simpl. split; [done|].
  assert (Hm : m ∈ legalMoves (self f) ((pos f).1, (pos f).2)).
  { rewrite <- Hperm. by left. }
  apply legalMoves_elem in Hm as [Hm _]. by apply isFree_true in Hm as [Hm _].
Qed.

(** From a square of the board, on a board of the right shape, the loop
    raises nothing. *)
Lemma loop_safe steps :
  ∀ f, shaped (self f) → inb (n (self f)) (pos f) →
       ∃ fin, loop steps f = Ok fin.
Proof.
  induction steps as [|step rest IH]; intros f Hwf Hpos; [simpl; eauto|].
  rewrite loop_cons.
  destruct (visit_in_reach f step Hwf) as [Hok _].
  destruct Hok as (f1 & -> & Hwf1).
  { destruct Hpos. unfold in_reach. lia. }
  simpl. destruct (advance_safe f1 step Hwf1) as (ctl & -> & Hctl). simpl.
  destruct ctl as [f2|at_ f2 v]; [|eauto].
  destruct Hctl. by apply IH.
Qed.

(** On an engine of side at least 1 the call raises exactly when a
    coordinate of the start square is outside [-N, N); what it raises is
    [IndexError], at the first store into the board. Negative coordinates
    down to [-N] are accepted by the subscripts and raise nothing. *)
Theorem solve_raises_iff_start_out_of_reach (s0 : KnightsTour) :
  1 ≤ n s0 →
  (solve_warnsdorff s0 = Raise IndexError ↔ ¬ in_reach (n s0) (start s0)) ∧
  (in_reach (n s0) (start s0) → ∃ v, solve_warnsdorff s0 = Ok v) ∧
  solve_warnsdorff s0 ≠ Raise ValueError.
Proof.
  intros Hn.
  assert (Hcases :
    (¬ in_reach (n s0) (start s0) ∧ run s0 = Raise IndexError) ∨
    (in_reach (n s0) (start s0) ∧ ∃ fin, run s0 = Ok fin)).
  { unfold run, range. rewrite seqZ_cons by nia. rewrite loop_cons.
    destruct (visit_in_reach (enter s0) 0 (fresh_board_wf _)) as [Hok Hout].
    simpl in Hok, Hout.
    destruct (decide (in_reach (n s0) (start s0))) as [Hin|Hnin].
    - right. split; [done|]. destruct (Hok Hin) as (f1 & -> & Hwf1). simpl.
      destruct (advance_safe f1 0 Hwf1) as (ctl & -> & Hctl). simpl.
      destruct ctl as [f2|at_ f2 v]; [|eauto].
      destruct Hctl. by apply loop_safe.
    - left. split; [done|]. by rewrite (Hout Hnin). }
  unfold solve_warnsdorff.
  destruct Hcases as [[Hout ->]|[Hin [fin ->]]]; simpl.
  - split; [done|]. split; [done|done].
  - split; [split; done|]. split; [eauto|done].
Qed.

Lemma solve_raises_iff_start_out_of_reach_witness :
  1 ≤ n {| n := 5; start := (5, 0); board := [] |} ∧
  (solve_warnsdorff {| n := 5; start := (5, 0); board := [] |}
   = Raise IndexError ↔ ¬ in_reach 5 (5, 0)) ∧
  (in_reach 5 (5, 0) →
   ∃ v, solve_warnsdorff {| n := 5; start := (5, 0); board := [] |} = Ok v) ∧
  solve_warnsdorff {| n := 5; start := (5, 0); board := [] |}
  ≠ Raise ValueError.
Proof.
  assert (H1 : 1 ≤ n {| n := 5; start := (5, 0); board := [] |})
    by (simpl; lia).
  split; [exact H1|].
  exact (solve_raises_iff_start_out_of_reach
           {| n := 5; start := (5, 0); board := [] |} H1).
Defined.


(** *** Where a returned path begins *)

Lemma loop_begins steps :
  ∀ f fin st p,
    head (path f ++ [pos f]) = Some st →
    loop steps f = Ok fin → returned fin = Some p →
    head p = Some st.
Proof.
  induction steps as [|step rest IH]; intros f fin st p Hh; simpl.
  - by intros [= <-].
  - destruct (visit f step) as [f1|] eqn:Hv; [|done]. simpl.
    apply visit_Ok in Hv as (b' & _ & ->).
    destruct (advance _ step) as [[f2|at_ f2 v]|] eqn:Ha; simpl; [| |done].
    + apply advance_Next in Ha as (m & ms & _ & ->). simpl.
      apply IH. simpl. rewrite <- Hh. by destruct (path f).
    + apply advance_Return in Ha as (_ & _ & _ & [[_ ->]|[_ ->]]);
        simpl in *; intros [= <-]; simpl; [|done].
      by intros [= <-].
Qed.

(** A returned path is not empty and its first square is the start
    square, whatever that square is. With a start square off the board
    that the subscripts accept, a returned path is therefore not a tour of
    the board. *)
Theorem returned_path_begins_at_start (s0 : KnightsTour) (p : list square) :
  solve_warnsdorff s0 = Ok (Some p) →
  head p = Some (start s0) ∧
  (¬ inb (n s0) (start s0) → ¬ Forall (inb (n s0)) p).
Proof.
  unfold solve_warnsdorff, run.
  destruct (loop _ _) as [fin|] eqn:Hloop; [|done]. simpl. intros [= Hret].
  assert (Hh : head p = Some (start s0)).
  { eapply (loop_begins _ (enter s0)); [|exact Hloop|exact Hret]. done. }
  split; [done|]. intros Hout Hall. apply Hout.
  destruct p as [|q p]; [done|]. injection Hh as ->.
  by apply Forall_cons in Hall as [? _].
Qed.

Lemma solve_wrapped_5x5 :
  solve_warnsdorff {| n := 5; start := (-1, 0); board := [] |}
  = Ok (Some wrapped_5x5).
Proof. by vm_compute. Defined.

Lemma returned_path_begins_at_start_witness :
  solve_warnsdorff {| n := 5; start := (-1, 0); board := [] |}
  = Ok (Some wrapped_5x5) ∧
  head wrapped_5x5 = Some (-1, 0) ∧
  (¬ inb 5 (-1, 0) → ¬ Forall (inb 5) wrapped_5x5).
Proof.
  split; [exact solve_wrapped_5x5|].
  exact (returned_path_begins_at_start
           {| n := 5; start := (-1, 0); board := [] |} wrapped_5x5
           solve_wrapped_5x5).
Defined.

(** *** The board the call leaves *)

Lemma run_terminal_of s0 fin :
  inb (n s0) (start s0) → run s0 = Ok fin → terminal s0 fin.
Proof.
  intros Hst Hrun. destruct (run_terminal s0 Hst) as (fin' & Hrun' & Hfin).
  rewrite Hrun in Hrun'. by injection Hrun' as <-.
Qed.

(** After a call that returned a path, from a start square on the board,
    no cell of the board is unvisited: every square of the board is in the
    path, and its cell holds the position of the square in the path. *)
Theorem board_after_tour (s0 : KnightsTour) (fin : finished)
    (p : list square) (q : square) :
  inb (n s0) (start s0) → run s0 = Ok fin → returned fin = Some p →
  inb (n s0) q →
  ∃ i : nat,
    p !! i = Some q ∧ Z.of_nat i < n s0 * n s0 ∧
    board_get (board (self (final_frame fin))) q.1 q.2 = Ok (Z.of_nat i).
Proof.
  intros Hst Hrun Hret Hq. pose proof (run_terminal_of _ _ Hst Hrun) as Hfin.
  destruct fin as [[] k f v|f]; simpl in *; [| |done].
  - destruct Hfin as (Hr & -> & ->). injection Hret as <-.
    destruct (reach_inv _ _ _ Hst Hr) as (Hn & _ & Hc & Hlen & _).
    destruct Hc as [Hwf Hin Hnd _ Hix _]. rewrite Hn in *.
    assert (Hqp : q ∈ path f).
    { destruct Hq. apply (full_path_covers (n s0)); try done; lia. }
    apply list_elem_of_lookup_1 in Hqp as [i Hi]. exists i.
    split; [done|]. split.
    + apply lookup_lt_Some in Hi. lia.
    + rewrite (board_get_wf (n s0)); [|done|by destruct q].
      by rewrite (Hix i q Hi).
  - by destruct Hfin as (f1 & _ & _ & _ & _ & ->).
Qed.

Lemma run_corner_5 :
  run (corner 5)
  = Ok (InLoop RetTour 24
          {| self := {| n := 5; start := (0, 0);
                        board := [[0; 21; 10; 15; 6];
                                  [11; 16; 7; 20; 9];
                                  [24; 1; 22; 5; 14];
                                  [17; 12; 3; 8; 19];
                                  [2; 23; 18; 13; 4]] |};
             path := tour_5x5; pos := (2, 0); calls := 24 |}
          (Some tour_5x5)).
Proof. by vm_compute. Defined.

Lemma board_after_tour_witness :
  inb (n (corner 5)) (start (corner 5)) ∧
  inb (n (corner 5)) (3, 2) ∧
  ∃ i : nat,
    tour_5x5 !! i = Some (3, 2) ∧ Z.of_nat i < n (corner 5) * n (corner 5) ∧
    board_get [[0; 21; 10; 15; 6]; [11; 16; 7; 20; 9]; [24; 1; 22; 5; 14];
               [17; 12; 3; 8; 19]; [2; 23; 18; 13; 4]] 3 2
    = Ok (Z.of_nat i).
Proof.
  assert (H1 : inb (n (corner 5)) (start (corner 5)))
    by (unfold inb; simpl; lia).
  assert (H2 : inb (n (corner 5)) (3, 2)) by (unfold inb; simpl; lia).
  split; [exact H1|]. split; [exact H2|].
  exact (board_after_tour (corner 5) _ tour_5x5 (3, 2) H1 run_corner_5
           eq_refl H2).
Defined.

(** *** What [None] means *)

(** When a call from a start square on the board returns [None], the
    knight is stuck for good: fewer than N² squares have been visited,
    and every knight move from the last square visited leads off the
    board or to a square visited before. *)
Theorem None_is_a_dead_end (s0 : KnightsTour) (fin : finished) :
  inb (n s0) (start s0) → run s0 = Ok fin → returned fin = None →
  last (path (final_frame fin)) = Some (pos (final_frame fin)) ∧
  Z.of_nat (length (path (final_frame fin))) < n s0 * n s0 ∧
  ∀ d, d ∈ KNIGHT_MOVES →
       ¬ inb (n s0) (offset (pos (final_frame fin)) d) ∨
       offset (pos (final_frame fin)) d ∈ path (final_frame fin).
Proof.
  intros Hst Hrun Hret. pose proof (run_terminal_of _ _ Hst Hrun) as Hfin.
  destruct fin as [[] k f v|f]; simpl in *; [| |done].
  - destruct Hfin as (_ & _ & ->). done.
  - destruct Hfin as (f1 & Hr & Hk & Hsort & -> & _). simpl.
    destruct (reach_inv _ _ _ Hst Hr) as (Hn & _ & Hc & Hlen & Hlast).
    split; [done|]. split.
    { inversion Hr; subst. lia. }
    intros d Hd.
    destruct (warnsdorff_sort_wf (self f1) (pos f1).1 (pos f1).2
                (cons_wf _ _ Hc)) as (out & Hout & Hperm & _).
    rewrite Hsort in Hout. injection Hout as <-.
    rewrite <- surjective_pairing in Hperm.
    apply Permutation_nil_l in Hperm.
    destruct (decide (inb (n s0) (offset (pos f1) d))) as [Hin|]; [|by left].
    right. rewrite <- Hn in Hin. apply (cons_marked _ _ Hc _ Hin).
    intros Hcell.
    assert (Hm : offset (pos f1) d ∈ legalMoves (self f1) (pos f1)).
    { apply legalMoves_elem. split; [by apply isFree_true|eauto]. }
    rewrite <- Hperm in Hm. by apply elem_of_nil in Hm.
Qed.

Lemma None_is_a_dead_end_witness :
  inb (n (corner 3)) (start (corner 3)) ∧
  run (corner 3) = Ok stuck_3x3 ∧
  returned stuck_3x3 = None ∧
  last (path (final_frame stuck_3x3)) = Some (pos (final_frame stuck_3x3)) ∧
  Z.of_nat (length (path (final_frame stuck_3x3)))
  < n (corner 3) * n (corner 3) ∧
  ∀ d, d ∈ KNIGHT_MOVES →
       ¬ inb (n (corner 3)) (offset (pos (final_frame stuck_3x3)) d) ∨
       offset (pos (final_frame stuck_3x3)) d ∈ path (final_frame stuck_3x3).
Proof.
  assert (H1 : inb (n (corner 3)) (start (corner 3)))
    by (unfold inb; simpl; lia).
  split; [exact H1|]. split; [exact run_corner_3|]. split; [reflexivity|].
  exact (None_is_a_dead_end (corner 3) stuck_3x3 H1 run_corner_3 eq_refl).
Defined.


(** *** The legal moves, on any board *)

Lemma neighbors_from_sublist s r c offsets l :
  neighbors_from s r c offsets = Ok l →
  l `sublist_of` (offset (r, c) <$> offsets).
Proof.
  revert l. induction offsets as [|[dr dc] rest IH]; intros l; simpl.
  - by intros [= <-].
  - destruct (_is_free s (r + dr) (c + dc)) as [free|]; [|done]. simpl.
    destruct (neighbors_from s r c rest) as [tl|]; [|done]. simpl.
    intros [= <-]. specialize (IH tl eq_refl).
    destruct free; [by apply sublist_skip|by apply sublist_cons].
Qed.

Lemma offset_inj p : Inj (=) (=) (offset p).
Proof.
  intros [a b] [a' b']. unfold offset. simpl. intros [= Ha Hb].
  f_equal; lia.
Qed.

(** Whatever the board holds, a list returned by [_neighbors] is cut out
    of the eight offset squares in their order: it has at most eight
    squares, no square twice, and never the square itself. The ranked
    list of [_warnsdorff_sort] has the same squares, as many of them. *)
Theorem neighbors_at_most_eight (s : KnightsTour) (r c : Z)
    (moves : list square) :
  _neighbors s r c = Ok moves →
  moves `sublist_of` (offset (r, c) <$> KNIGHT_MOVES) ∧
  (length moves ≤ 8)%nat ∧ NoDup moves ∧ ((r, c) ∉ moves) ∧
  ∀ out, _warnsdorff_sort s r c = Ok out →
         out ≡ₚ moves ∧ length out = length moves.
Proof.
  intros Hm. pose proof (neighbors_from_sublist _ _ _ _ _ Hm) as Hsub.
  split; [done|]. split; [|split; [|split]].
  - apply sublist_length in Hsub. by rewrite length_fmap in Hsub.
  - eapply sublist_NoDup; [|exact Hsub].
    apply (@NoDup_fmap_2 _ _ (offset (r, c)) (offset_inj (r, c))).
    apply KNIGHT_MOVES_eight.
  - intros Hin.
    destruct (neighbors_from_offsets _ _ _ _ _ Hm _ Hin) as (d & Hd & Heq).
    apply KNIGHT_MOVES_geometry in Hd. destruct d as [dr dc].
    unfold offset in Heq. simpl in *. injection Heq as Hr Hc. lia.
  - intros out. unfold _warnsdorff_sort. rewrite Hm. simpl. intros Hs.
    apply list_sort_perm in Hs. split; [done|]. by rewrite Hs.
Qed.

Lemma neighbors_at_most_eight_witness :
  _neighbors corner_marked 0 0 = Ok [(2, 1); (1, 2)] ∧
  [(2, 1); (1, 2)] `sublist_of` (offset (0, 0) <$> KNIGHT_MOVES) ∧
  (length [(2, 1); (1, 2)] ≤ 8)%nat ∧ NoDup [(2, 1); (1, 2)] ∧
  ((0, 0) ∉ [(2, 1); (1, 2)]) ∧
  ∀ out, _warnsdorff_sort corner_marked 0 0 = Ok out →
         out ≡ₚ [(2, 1); (1, 2)] ∧ length out = length [(2, 1); (1, 2)].
Proof.
  assert (H1 : _neighbors corner_marked 0 0 = Ok [(2, 1); (1, 2)])
    by reflexivity.
  split; [exact H1|].
  exact (neighbors_at_most_eight corner_marked 0 0 [(2, 1); (1, 2)] H1).
Defined.

(** *** The square the search moves to *)

Lemma filter_head_split {A : Type} (P : A → bool) (l : list A) m t :
  List.filter P l = m :: t →
  ∃ l1 l2, l = l1 ++ m :: l2 ∧ Forall (λ q, P q = false) l1.
Proof.
  induction l as [|x l IH]; simpl; [done|].
  destruct (P x) eqn:Hx.
  - intros [= -> _]. exists [], l. split; [done|constructor].
  - intros Ht. destruct (IH Ht) as (l1 & l2 & -> & Hl1).
    exists (x :: l1), l2. split; [done|]. by constructor.
Qed.

(** Warnsdorff's rule, as the loop applies it. When an iteration goes on
    to a next square, that square is a legal move from the current one,
    no legal move has a smaller onward count, and every legal move that
    comes before it in offset order has a strictly greater one. The
    board and the path are left as they were. *)
Theorem advance_takes_least_onward (f f2 : frame) (k : Z) :
  shaped (self f) → advance f k = Ok (Next f2) →
  self f2 = self f ∧ path f2 = path f ∧
  (∀ q, onward (self f) q = Ok (mobility (self f) q)) ∧
  ∃ before after,
    _neighbors (self f) (pos f).1 (pos f).2 = Ok (before ++ pos f2 :: after) ∧
    Forall (λ q, (mobility (self f) (pos f2) < mobility (self f) q)%nat)
      before ∧
    Forall (λ q, (mobility (self f) (pos f2) ≤ mobility (self f) q)%nat)
      after.
Proof.
  intros Hwf Hadv. apply advance_Next in Hadv as (m & rest & Hsort & ->).
  simpl. split; [done|]. split; [done|]. split.
  { intros [qr qc]. unfold onward. simpl. by rewrite neighbors_wf. }
  destruct (warnsdorff_sort_wf _ (pos f).1 (pos f).2 Hwf)
    as (out & Hout & Hperm & Hsorted & Hstable).
  rewrite Hsort in Hout. injection Hout as <-.
  rewrite neighbors_wf by done.
  set (moves := legalMoves (self f) ((pos f).1, (pos f).2)) in *.
  assert (Hmin : ∀ q, q ∈ moves →
            (mobility (self f) m ≤ mobility (self f) q)%nat).
  { intros q Hq. rewrite <- Hperm in Hq.
    apply elem_of_cons in Hq as [->|Hq]; [done|].
    apply StronglySorted_inv in Hsorted as [_ Hall].
    rewrite Forall_forall in Hall. by apply Hall. }
  specialize (Hstable (mobility (self f) m)). simpl in Hstable.
  rewrite Nat.eqb_refl in Hstable. symmetry in Hstable.
  apply filter_head_split in Hstable as (l1 & l2 & Hsplit & Hl1).
  exists l1, l2. split; [by rewrite Hsplit|]. split.
  - apply Forall_forall. intros q Hq.
    rewrite Forall_forall in Hl1. specialize (Hl1 q Hq).
    apply Nat.eqb_neq in Hl1.
    assert ((mobility (self f) m ≤ mobility (self f) q)%nat); [|lia].
    apply Hmin. rewrite Hsplit. apply elem_of_app. by left.
  - apply Forall_forall. intros q Hq. apply Hmin. rewrite Hsplit.
    apply elem_of_app. right. by right.
Qed.

Lemma advance_takes_least_onward_witness :
  shaped (self first_marked) ∧
  advance first_marked 0 = Ok (Next first_chosen) ∧
  self first_chosen = self first_marked ∧
  path first_chosen = path first_marked ∧
  (∀ q, onward (self first_marked) q = Ok (mobility (self first_marked) q)) ∧
  ∃ before after,
    _neighbors (self first_marked) (pos first_marked).1 (pos first_marked).2
    = Ok (before ++ pos first_chosen :: after) ∧
    Forall (λ q, (mobility (self first_marked) (pos first_chosen)
                  < mobility (self first_marked) q)%nat) before ∧
    Forall (λ q, (mobility (self first_marked) (pos first_chosen)
                  ≤ mobility (self first_marked) q)%nat) after.
Proof.
  assert (H2 : advance first_marked 0 = Ok (Next first_chosen))
    by reflexivity.
  split; [exact corner_marked_shaped|]. split; [exact H2|].
  exact (advance_takes_least_onward first_marked first_chosen 0
           corner_marked_shaped H2).
Defined.


(** ** Printing *)

(** *** Strings *)





(** *** Decimal digits *)






(** *** The board as printed *)

Lemma for_each_total {A B : Type} (f : A → result B) (g : A → B) (l : list A) :
  (∀ x, x ∈ l → f x = Ok (g x)) → for_each f l = Ok (g <$> l).
Proof.
  induction l as [|x l IH]; intros Hf; [done|].
  simpl. rewrite Hf by left. simpl.
  rewrite IH; [done|]. intros y Hy. apply Hf. by right.
Qed.

Lemma row_text_shaped s width r :
  shaped s → 0 ≤ r < n s →
  row_text s width r
  = Ok (String.concat " "
          ((λ c, cell_text width (cell (board s) r c)) <$> range (n s))).
Proof.
  intros Hwf Hr. unfold row_text.
  rewrite (for_each_total _ (λ c, cell_text width (cell (board s) r c)));
    [done|].
  intros c Hc. apply elem_of_seqZ in Hc.
  rewrite (board_get_wf (n s)); [done|done|]. split; simpl; lia.
Qed.

Lemma print_rows_shaped s width rows :
  shaped s → Forall (λ r, 0 ≤ r < n s) rows →
  print_rows s width rows
  = ((λ r, String.concat " "
             ((λ c, cell_text width (cell (board s) r c)) <$> range (n s)))
       <$> rows, Ok ()).
Proof.
  intros Hwf. induction 1 as [|r rows Hr _ IH]; [done|].
  simpl. rewrite row_text_shaped by done. by rewrite IH.
Qed.





(** ** The command line *)

Lemma loop_shaped steps :
  ∀ f fin, loop steps f = Ok fin → shaped (self f) →
           shaped (self (final_frame fin)).
Proof.
  induction steps as [|step rest IH]; intros f fin; simpl.
  - by intros [= <-].
  - destruct (visit f step) as [f1|] eqn:Hv; [|done]. simpl.
    apply visit_Ok in Hv as (b' & Hset & ->).
    destruct (advance _ step) as [[f2|at_ f2 v]|] eqn:Ha; simpl; [| |done].
    + apply advance_Next in Ha as (m & ms & _ & ->).
      intros Hl Hwf. apply (IH _ _ Hl). unfold shaped. simpl.
      by eapply board_set_shape.
    + apply advance_Return in Ha as (Hs & _). intros [= <-] Hwf. simpl.
      rewrite Hs. unfold shaped. simpl. by eapply board_set_shape.
Qed.

Lemma run_shaped s0 fin : run s0 = Ok fin → shaped (self (final_frame fin)).
Proof.
  intros Hrun. apply (loop_shaped _ _ _ Hrun). apply fresh_board_wf.
Qed.

Lemma print_board_shaped s :
  shaped s → ∃ rows, print_board s = (rows, Ok ()).
Proof.
  intros Hwf. unfold print_board. rewrite print_rows_shaped; [eauto|done|].
  apply Forall_forall. intros r Hr. apply elem_of_seqZ in Hr. lia.
Qed.

Lemma report_Ok kt v quiet :
  shaped kt → ∃ out, report kt v quiet = (out, Ok ()).
Proof.
  intros Hwf. unfold report. destruct v as [[|q pth]|]; [eauto| |eauto].
  destruct quiet; simpl; [eauto|].
  destruct (print_board_shaped kt Hwf) as [rows ->]. eauto.
Qed.

Lemma solve_run_Raise s e :
  solve_warnsdorff s = Raise e ↔ run s = Raise e.
Proof.
  unfold solve_warnsdorff. destruct (run s); simpl.
  - split; intros; done.
  - split; intros [= ->]; done.
Qed.

(** How [main] can fail. A size below 1 raises [ValueError] out of the
    constructor, before anything is printed. A start square with a
    coordinate outside [-N, N) raises [IndexError] out of the search,
    after the first line is printed. In every other case [main] ends
    normally. *)
Theorem main_errors (a : args) :
  (main a = ([], Raise ValueError) ↔ arg_n a < 1) ∧
  (main a = ([header (arg_n a) (default (0, 0) (arg_start a))],
             Raise IndexError) ↔
   1 ≤ arg_n a ∧ ¬ in_reach (arg_n a) (default (0, 0) (arg_start a))) ∧
  (1 ≤ arg_n a → in_reach (arg_n a) (default (0, 0) (arg_start a)) →
   ∃ out, main a = (header (arg_n a) (default (0, 0) (arg_start a)) :: out,
                    Ok ())).
Proof.
  unfold main.
  replace (match arg_start a with Some st => st | None => (0, 0) end)
    with (default (0, 0) (arg_start a)) by (by destruct (arg_start a)).
  set (st := default (0, 0) (arg_start a)).
  unfold init. destruct (Z.ltb_spec (arg_n a) 1) as [Hlt|Hge].
  { split; [done|]. split; [|lia]. split; [done|lia]. }
  set (kt := {| n := arg_n a; start := st; board := fresh_board (arg_n a) |}).
  destruct (solve_raises_iff_start_out_of_reach kt Hge) as (Hix & Hok & Hve).
  fold st in Hix, Hok. simpl in Hix, Hok.
  destruct (arg_method a).
  destruct (run kt) as [fin|e] eqn:Hrun.
  - assert (Hin : in_reach (arg_n a) st).
    { destruct (decide (in_reach (arg_n a) st)) as [|Hout]; [done|].
      apply Hix, solve_run_Raise in Hout. by rewrite Hrun in Hout. }
    destruct (report_Ok (self (final_frame fin)) (returned fin) (arg_quiet a)
                (run_shaped _ _ Hrun)) as [out ->].
    split; [split; [done|lia]|]. split; [|eauto].
    split; [done|]. by intros [_ Hout].
  - assert (He : e = IndexError).
    { destruct e; [|done]. by apply solve_run_Raise in Hrun. }
    subst e. apply solve_run_Raise, Hix in Hrun.
    split; [split; [done|lia]|]. split; [done|].
    intros _ Hin. by destruct Hrun.
Qed.






(** ** A new engine *)

(** On an engine just built every square of the board is free: the board
    has N rows of N cells, each reads as unvisited, and [_is_free] gives
    the same answer as [_in_bounds] for all coordinates. *)
Theorem init_all_free (k : Z) (st : square) (s : KnightsTour) (r c : Z) :
  init k st = Ok s →
  shaped s ∧
  _is_free s r c = Ok (_in_bounds s r c) ∧
  (inb k (r, c) → board_get (board s) r c = Ok unvisited).
Proof.
  intros Hinit. pose proof (init_shaped _ _ _ Hinit) as Hwf.
  unfold init in Hinit. destruct (k <? 1); [done|]. injection Hinit as <-.
  split; [done|].
  assert (Hget : inb k (r, c) →
            board_get (fresh_board k) r c = Ok unvisited).
  { intros Hrc. rewrite (board_get_wf k); [|apply fresh_board_wf|done].
    by rewrite fresh_board_cell. }
  split; [|done].
  unfold _is_free. destruct (_in_bounds _ r c) eqn:Hb; [|done].
  apply in_bounds_true in Hb. simpl in *. by rewrite (Hget Hb).
Qed.

Lemma init_all_free_witness :
  init 3 (0, 0) = Ok (corner 3) ∧
  shaped (corner 3) ∧
  _is_free (corner 3) 2 1 = Ok (_in_bounds (corner 3) 2 1) ∧
  (inb 3 (2, 1) → board_get (board (corner 3)) 2 1 = Ok unvisited).
Proof.
  assert (H1 : init 3 (0, 0) = Ok (corner 3)) by reflexivity.
  split; [exact H1|]. exact (init_all_free 3 (0, 0) (corner 3) 2 1 H1).
Defined.
